(** * blame-browse: the asynchronous git runner ([src/git-reader.c])

    A shallow embedding of [GitReader], the object that spawns [git],
    watches the child's two pipes and its exit from the GLib main loop, and
    emits the [completed] signal.

    The private structure of the reader is a record; the GLib main context
    (attached sources), the table of unreaped children and the open pipe
    ends form the rest of the world the reader acts on.  Every C function
    is a state-passing function on that world; the callbacks the main loop
    may run are the labels of a partial step function.  What the reader does
    to the outside (signals emitted, signals sent to the child, bytes
    written to the program's own standard output) is appended to a log.

    Two widgets of the program follow, each in a module of its own: the
    source view ([src/git-source-view.c]), as the texts it lays out, the
    lines it paints for an exposed area and the sizes it measures; and the
    commit dialog ([src/git-commit-dialog.c]), as the table and the text
    it shows and the reference and the signal handler it holds on its
    commit. *)

From Stdlib Require Import ZArith Ascii String List Permutation Lia.
From stdpp Require Import gmap strings list.

Local Open Scope Z_scope.

(** ** Bytes and strings *)

(** [isspace] of <ctype.h> in the "C" locale: space, and the five controls
    from horizontal tab (9) to carriage return (13). *)
Definition isspace (c : ascii) : bool :=
  let n := Z.of_N (N_of_ascii c) in
  (n =? 32) || ((9 <=? n) && (n <=? 13)).

(** [str[i]] for [0 <= i <= len]: a [GString] keeps a NUL after its last
    byte. *)
Definition char_at (str : string) (i : nat) : ascii :=
  match String.get i str with
  | Some c => c
  | None => Ascii.zero
  end.

(** Integer conversions of a 64-bit target: [gsize] is unsigned, [gssize]
    signed. *)
Definition to_gsize (z : Z) : Z := z mod 2 ^ 64.

Definition to_gssize (z : Z) : Z :=
  let u := z mod 2 ^ 64 in
  if u <? 2 ^ 63 then u else u - 2 ^ 64.

(** The first [n] bytes of a string. *)
Fixpoint str_take (n : nat) (s : string) : string :=
  match n, s with
  | S n', String c r => String c (str_take n' r)
  | _, _ => EmptyString
  end.

(** [g_string_truncate (string, len)]: [len] is a [gsize]; the new length
    is [MIN (len, string->len)]. *)
Definition g_string_truncate (s : string) (len : Z) : string :=
  str_take (Z.to_nat (Z.min (to_gsize len) (Z.of_nat (String.length s)))) s.

(** [g_string_append_len (string, buf, bytes_read)]. *)
Definition g_string_append_len (s buf : string) : string := s +:+ buf.

(** What [%s] prints of a byte buffer: the bytes before the first NUL. *)
Fixpoint c_str (s : string) : string :=
  match s with
  | EmptyString => EmptyString
  | String c r => if Ascii.eqb c Ascii.zero then EmptyString else String c (c_str r)
  end.

(** The body of the loop of [git_reader_check_complete],
    [for (...; len > 0 && isspace (str[len]); len--);], entered with a
    positive index: it stops at the first index, going down, that is [0] or
    holds no white space. *)
Fixpoint trim_scan (str : string) (len : nat) : nat :=
  match len with
  | O => O
  | S n => if isspace (char_at str len) then trim_scan str n else len
  end.

(** The value of [len] after the loop; it starts at
    [priv->error_string->len - 1], computed on [gsize] and stored in a
    [gssize], so it is [-1] for the empty string. *)
Definition trim_len (str : string) : Z :=
  let len := to_gssize (to_gsize (Z.of_nat (String.length str)) - 1) in
  if 0 <? len then Z.of_nat (trim_scan str (Z.to_nat len)) else len.

(** ** Errors *)

(** Error domains: [GIT_ERROR] is the reader's own (git-common.h); the
    others are the domains of the GLib calls the reader makes. *)
Inductive GQuark := GIT_ERROR | G_IO_CHANNEL_ERROR | G_CONVERT_ERROR | G_SPAWN_ERROR.

(** Error codes: [GIT_ERROR_EXIT_STATUS] is declared in git-common.h, whose
    numbering is not needed; library codes are kept as numbers. *)
Inductive ErrorCode := GIT_ERROR_EXIT_STATUS | LibraryCode (n : Z).

Record GError := mkGError {
  domain : GQuark;
  code : ErrorCode;
  message : string
}.

Definition generic_message : string := "Error invoking git".
Definition message_prefix : string := "Error invoking git: ".

(** The error assembly of [git_reader_check_complete] on the exit code and
    the diagnostic buffer: the buffer after the call, and the error handed
    to the signal. *)
Definition exit_error (exit_code : Z) (error_string : string)
  : string * option GError :=
  if exit_code =? 0 then (error_string, None)
  else
    let len := trim_len error_string in
    let str := g_string_truncate error_string len in
    if 0 <? len
    then (str, Some (mkGError GIT_ERROR GIT_ERROR_EXIT_STATUS
                              (message_prefix +:+ c_str str)))
    else (str, Some (mkGError GIT_ERROR GIT_ERROR_EXIT_STATUS generic_message)).

Definition nl : string := String "010"%char EmptyString.

(** ** The reader and the world around it *)

(** [struct _GitReaderPrivate].  A channel pointer is represented by the
    descriptor its channel was made for. *)
Record GitReaderPrivate := mkPriv {
  has_child : bool;
  child_pid : Z;
  child_stdout : Z;
  child_stderr : Z;
  child_watch_source : Z;
  child_stdout_source : Z;
  child_stderr_source : Z;
  child_exit_code : Z;
  error_string : string
}.

(** A source attached to the main context: the callback it runs, and the
    number of the [git_reader_start] call that attached it.  The number is
    ghost state: the C callbacks only receive the reader. *)
Inductive WatchKind :=
| WChild (pid : Z)   (* g_child_watch_add (pid, git_reader_on_child_exit) *)
| WStdout            (* g_io_add_watch (..., git_reader_on_child_stdout) *)
| WStderr.           (* g_io_add_watch (..., git_reader_on_child_stderr) *)

Record Watch := mkWatch { w_kind : WatchKind; w_tag : nat }.

(** A child that was not waited for yet either still runs or has
    terminated. *)
Inductive ProcState := Running | Zombie.

(** What the reader does to the outside, in the order it happens. *)
Inductive Effect :=
| Completed (tag : nat) (error : option GError)  (* g_signal_emit (COMPLETED) *)
| Sigterm (pid : Z)                              (* kill (pid, SIGTERM) *)
| Spawn (argv : list string)                     (* g_spawn_async_with_pipes *)
| Fputs (s : string)                             (* fputs (s, stdout) *)
| Fwrite (buf : string).                         (* fwrite (buf, n, 1, stdout) *)

Record World := mkWorld {
  priv : GitReaderPrivate;
  sources : gmap Z Watch;        (* sources attached to the main context *)
  next_source_id : Z;            (* the id the next attached source gets *)
  channels : gset Z;             (* open read ends of pipes *)
  procs : gmap Z ProcState;      (* children not waited for yet *)
  invocation : nat;              (* ghost: calls of git_reader_start so far *)
  effects : list Effect
}.

(** Field updates. *)
Definition set_has_child (v : bool) (p : GitReaderPrivate) :=
  mkPriv v (child_pid p) (child_stdout p) (child_stderr p) (child_watch_source p)
         (child_stdout_source p) (child_stderr_source p) (child_exit_code p)
         (error_string p).
Definition set_child_pid (v : Z) (p : GitReaderPrivate) :=
  mkPriv (has_child p) v (child_stdout p) (child_stderr p) (child_watch_source p)
         (child_stdout_source p) (child_stderr_source p) (child_exit_code p)
         (error_string p).
Definition set_child_stdout (v : Z) (p : GitReaderPrivate) :=
  mkPriv (has_child p) (child_pid p) v (child_stderr p) (child_watch_source p)
         (child_stdout_source p) (child_stderr_source p) (child_exit_code p)
         (error_string p).
Definition set_child_stderr (v : Z) (p : GitReaderPrivate) :=
  mkPriv (has_child p) (child_pid p) (child_stdout p) v (child_watch_source p)
         (child_stdout_source p) (child_stderr_source p) (child_exit_code p)
         (error_string p).
Definition set_child_watch_source (v : Z) (p : GitReaderPrivate) :=
  mkPriv (has_child p) (child_pid p) (child_stdout p) (child_stderr p) v
         (child_stdout_source p) (child_stderr_source p) (child_exit_code p)
         (error_string p).
Definition set_child_stdout_source (v : Z) (p : GitReaderPrivate) :=
  mkPriv (has_child p) (child_pid p) (child_stdout p) (child_stderr p)
         (child_watch_source p) v (child_stderr_source p) (child_exit_code p)
         (error_string p).
Definition set_child_stderr_source (v : Z) (p : GitReaderPrivate) :=
  mkPriv (has_child p) (child_pid p) (child_stdout p) (child_stderr p)
         (child_watch_source p) (child_stdout_source p) v (child_exit_code p)
         (error_string p).
Definition set_child_exit_code (v : Z) (p : GitReaderPrivate) :=
  mkPriv (has_child p) (child_pid p) (child_stdout p) (child_stderr p)
         (child_watch_source p) (child_stdout_source p) (child_stderr_source p) v
         (error_string p).
Definition set_error_string (v : string) (p : GitReaderPrivate) :=
  mkPriv (has_child p) (child_pid p) (child_stdout p) (child_stderr p)
         (child_watch_source p) (child_stdout_source p) (child_stderr_source p)
         (child_exit_code p) v.

Definition upd_priv (f : GitReaderPrivate -> GitReaderPrivate) (w : World) :=
  mkWorld (f (priv w)) (sources w) (next_source_id w) (channels w) (procs w)
          (invocation w) (effects w).
Definition upd_sources (f : gmap Z Watch -> gmap Z Watch) (w : World) :=
  mkWorld (priv w) (f (sources w)) (next_source_id w) (channels w) (procs w)
          (invocation w) (effects w).
Definition upd_channels (f : gset Z -> gset Z) (w : World) :=
  mkWorld (priv w) (sources w) (next_source_id w) (f (channels w)) (procs w)
          (invocation w) (effects w).
Definition upd_procs (f : gmap Z ProcState -> gmap Z ProcState) (w : World) :=
  mkWorld (priv w) (sources w) (next_source_id w) (channels w) (f (procs w))
          (invocation w) (effects w).
Definition emit (e : Effect) (w : World) :=
  mkWorld (priv w) (sources w) (next_source_id w) (channels w) (procs w)
          (invocation w) (effects w ++ [e]).

(** *** GLib and the operating system *)

Definition g_source_remove (id : Z) (w : World) : World :=
  upd_sources (delete id) w.

(** Attaching a source hands out the next id of the context (ids start at
    1; the wrap-around of the 32-bit counter is not modelled). *)
Definition g_source_attach (k : WatchKind) (tag : nat) (w : World) : World * Z :=
  let id := next_source_id w in
  (mkWorld (priv w) (<[id := mkWatch k tag]> (sources w)) (id + 1) (channels w)
           (procs w) (invocation w) (effects w),
   id).

(** [g_io_channel_shutdown] followed by [g_io_channel_unref]: the
    descriptor is closed; closing twice changes nothing. *)
Definition g_io_channel_shutdown (fd : Z) (w : World) : World :=
  upd_channels (fun s => s ∖ {[fd]}) w.

(** The forced termination of [git_reader_close_process]:
    [waitpid (pid, WNOHANG)] tells a running child (0) from a terminated
    one (its pid, which reaps it) and from one already waited for (-1);
    only a running child is sent SIGTERM and waited for.  The two
    [EINTR] retry loops are taken as one call each, and a child sent
    SIGTERM is taken to terminate. *)
Definition wait_or_kill (pid : Z) (w : World) : World :=
  match procs w !! pid with
  | Some Running => upd_procs (delete pid) (emit (Sigterm pid) w)
  | Some Zombie => upd_procs (delete pid) w
  | None => w
  end.

(** What [g_spawn_async_with_pipes] does: it fails with an error, leaving
    its output arguments alone, or it creates a child (a process id is
    positive) and the read ends of two pipes. *)
Inductive SpawnOutcome :=
| SpawnFailed (err : GError)
| Spawned (pid : positive) (stdout_fd stderr_fd : Z).

(** What one [g_io_channel_read_chars] into [gchar buf[512]] reports. *)
Inductive ReadResult :=
| IoError (err : GError)      (* G_IO_STATUS_ERROR *)
| IoNormal (buf : string)     (* G_IO_STATUS_NORMAL, bytes_read bytes *)
| IoEof                       (* G_IO_STATUS_EOF *)
| IoAgain.                    (* G_IO_STATUS_AGAIN *)

(** ** The reader's functions

    Each takes the world and returns the new one.  The callbacks also take
    the ghost number of the invocation whose watch runs them. *)

(** [git_reader_new], with [git_reader_init]: the private structure is
    zeroed and the diagnostic buffer is the empty string; nothing is
    attached yet. *)
Definition git_reader_new : World :=
  mkWorld (mkPriv false 0 0 0 0 0 0 0 EmptyString) ∅ 1 ∅ ∅ 0%nat [].

(** [git_reader_close_process (source, kill_child)].  The two source
    fields are tested, not reset; [g_spawn_close_pid] does nothing on this
    platform. *)
Definition git_reader_close_process (kill_child : bool) (w : World) : World :=
  if has_child (priv w) then
    let w := upd_priv (set_has_child false) w in
    let w := if child_stdout_source (priv w) =? 0 then w
             else g_source_remove (child_stdout_source (priv w)) w in
    let w := if child_stderr_source (priv w) =? 0 then w
             else g_source_remove (child_stderr_source (priv w)) w in
    let w := g_io_channel_shutdown (child_stdout (priv w)) w in
    let w := g_io_channel_shutdown (child_stderr (priv w)) w in
    if child_pid (priv w) =? 0 then w
    else
      let w := if kill_child
               then wait_or_kill (child_pid (priv w))
                                 (g_source_remove (child_watch_source (priv w)) w)
               else w in
      upd_priv (set_child_pid 0) w
  else w.

(** [git_reader_dispose], up to the parent class. *)
Definition git_reader_dispose (w : World) : World :=
  git_reader_close_process true w.

(** [git_reader_check_complete]: the join of the three completion
    signals. *)
Definition git_reader_check_complete (tag : nat) (w : World) : World :=
  if (child_pid (priv w) =? 0)
     && (child_stdout_source (priv w) =? 0)
     && (child_stderr_source (priv w) =? 0)
  then
    let w := git_reader_close_process false w in
    let '(str, error) := exit_error (child_exit_code (priv w)) (error_string (priv w)) in
    let w := upd_priv (set_error_string str) w in
    emit (Completed tag error) w
  else w.

(** [git_reader_on_child_exit (pid, status, data)]: [status] is the wait
    status as [waitpid] gives it. *)
Definition git_reader_on_child_exit (tag : nat) (pid status : Z) (w : World) : World :=
  let w := upd_priv (set_child_pid 0) w in
  let w := upd_priv (set_child_exit_code status) w in
  git_reader_check_complete tag w.

(** [git_reader_on_read_error]. *)
Definition git_reader_on_read_error (tag : nat) (error : GError) (w : World) : World :=
  let w := git_reader_close_process true w in
  emit (Completed tag (Some error)) w.

Definition dquote : string := String "034"%char EmptyString.

(** [git_reader_on_child_stdout] and [git_reader_on_child_stderr], on
    what their one read reported.  They return the new world and their
    [gboolean]: [false] detaches the source. *)
Definition git_reader_on_child_stdout (tag : nat) (r : ReadResult) (w : World)
  : World * bool :=
  match r with
  | IoError error => (git_reader_on_read_error tag error w, false)
  | IoNormal buf =>
      (emit (Fputs (dquote +:+ nl))
            (emit (Fwrite buf) (emit (Fputs ("got stdout: " +:+ dquote)) w)),
       true)
  | IoEof =>
      (git_reader_check_complete tag (upd_priv (set_child_stdout_source 0) w), false)
  | IoAgain => (w, true)
  end.

Definition git_reader_on_child_stderr (tag : nat) (r : ReadResult) (w : World)
  : World * bool :=
  match r with
  | IoError error => (git_reader_on_read_error tag error w, false)
  | IoNormal buf =>
      (upd_priv (fun p => set_error_string (g_string_append_len (error_string p) buf) p) w,
       true)
  | IoEof =>
      (git_reader_check_complete tag (upd_priv (set_child_stderr_source 0) w), false)
  | IoAgain => (w, true)
  end.

(** [git_reader_start (reader, error, args..., NULL)], on what the spawn
    does: the result is the returned [gboolean] and what [*error] was set
    to.  The ghost counter of invocations is advanced at the spawn
    attempt. *)
Definition git_reader_start (args : list string) (o : SpawnOutcome) (w : World)
  : World * (bool * option GError) :=
  let w := git_reader_close_process true w in
  let tag := S (invocation w) in
  let w := mkWorld (priv w) (sources w) (next_source_id w) (channels w) (procs w)
                   tag (effects w) in
  let argv := "git"%string :: args in
  let w := emit (Spawn argv) w in
  match o with
  | SpawnFailed err => (w, (false, Some err))
  | Spawned pid stdout_fd stderr_fd =>
      let w := upd_procs (<[Z.pos pid := Running]>) w in
      let w := upd_channels (fun s => {[stdout_fd]} ∪ ({[stderr_fd]} ∪ s)) w in
      let w := upd_priv (set_child_pid (Z.pos pid)) w in
      let '(w, id) := g_source_attach (WChild (child_pid (priv w))) tag w in
      let w := upd_priv (set_child_watch_source id) w in
      let w := upd_priv (set_child_stdout stdout_fd) w in
      let '(w, id) := g_source_attach WStdout tag w in
      let w := upd_priv (set_child_stdout_source id) w in
      let w := upd_priv (set_child_stderr stderr_fd) w in
      let '(w, id) := g_source_attach WStderr tag w in
      let w := upd_priv (set_child_stderr_source id) w in
      let w := upd_priv (set_has_child true) w in
      let w := upd_priv (fun p => set_error_string (g_string_truncate (error_string p) 0) p) w in
      (w, (true, None))
  end.

(** ** The main loop *)

(** What can happen to a reader: its two entry points are called, the
    child terminates, or the main loop dispatches one attached source.  A
    child watch reaps the child and is handed its wait status; a channel
    watch performs one read. *)
Inductive Event :=
| EvStart (args : list string) (o : SpawnOutcome)
| EvDispose
| EvChildDies (pid : Z)
| EvChildWatch (sid : Z) (status : Z)
| EvIO (sid : Z) (r : ReadResult).

(** A read returns at most [sizeof (buf)] bytes. *)
Definition read_fits (r : ReadResult) : bool :=
  match r with
  | IoNormal buf => (String.length buf <=? 512)%nat
  | _ => true
  end.

(** One event; [None] when it cannot happen in this world (no such source
    attached, no such child, more bytes than the buffer holds).  A child
    watch is detached once dispatched; a channel watch when its callback
    returns [FALSE]. *)
Definition step (e : Event) (w : World) : option World :=
  match e with
  | EvStart args o => Some (fst (git_reader_start args o w))
  | EvDispose => Some (git_reader_dispose w)
  | EvChildDies pid =>
      match procs w !! pid with
      | Some Running => Some (upd_procs (<[pid := Zombie]>) w)
      | _ => None
      end
  | EvChildWatch sid status =>
      match sources w !! sid with
      | Some (mkWatch (WChild pid) tag) =>
          match procs w !! pid with
          | Some Zombie =>
              Some (g_source_remove sid
                      (git_reader_on_child_exit tag pid status
                                                (upd_procs (delete pid) w)))
          | _ => None
          end
      | _ => None
      end
  | EvIO sid r =>
      if read_fits r then
        match sources w !! sid with
        | Some (mkWatch WStdout tag) =>
            let '(w', keep) := git_reader_on_child_stdout tag r w in
            Some (if keep then w' else g_source_remove sid w')
        | Some (mkWatch WStderr tag) =>
            let '(w', keep) := git_reader_on_child_stderr tag r w in
            Some (if keep then w' else g_source_remove sid w')
        | _ => None
        end
      else None
  end.

(** A trace of events, from left to right. *)
Fixpoint run (tr : list Event) (w : World) : option World :=
  match tr with
  | [] => Some w
  | e :: tr' =>
      match step e w with
      | Some w' => run tr' w'
      | None => None
      end
  end.

(** The worlds a reader can be in. *)
Definition reachable (w : World) : Prop :=
  exists tr, run tr git_reader_new = Some w.

(** Events of the main loop and of the child, as opposed to calls of the
    reader's entry points. *)
Definition is_callback (e : Event) : bool :=
  match e with
  | EvStart _ _ | EvDispose => false
  | _ => true
  end.

(** *** Reading the log *)

(** The [completed] signals emitted so far, each with the invocation it
    was emitted for and the error it carried ([None] is [NULL]). *)
Definition completions (w : World) : list (nat * option GError) :=
  omap (fun e => match e with Completed i err => Some (i, err) | _ => None end)
       (effects w).

(** Those emitted for the invocation [i]. *)
Definition completions_of (i : nat) (w : World) : list (option GError) :=
  omap (fun e => match e with
                 | Completed j err => if Nat.eqb i j then Some err else None
                 | _ => None
                 end)
       (effects w).

(** The entries of a list of completions that belong to [i]. *)
Definition select (i : nat) (l : list (nat * option GError)) : list (option GError) :=
  omap (fun c => if Nat.eqb i (fst c) then Some (snd c) else None) l.

(** The strings written to the program's own standard output, in
    order. *)
Definition debug_output (w : World) : list string :=
  omap (fun e => match e with Fputs s | Fwrite s => Some s | _ => None end) (effects w).

(** What the program's own standard output reads. *)
Definition printed (w : World) : string :=
  fold_right String.append EmptyString (debug_output w).

(** The signals [git_reader_close_process (reader, TRUE)] sends. *)
Definition kills (w : World) : list Effect :=
  if has_child (priv w) then
    match procs w !! child_pid (priv w) with
    | Some Running => [Sigterm (child_pid (priv w))]
    | _ => []
    end
  else [].

(** ** Reading a trace *)

(** A trace of the main loop and the child only: the reader's entry points
    are not called. *)
Definition callbacks (tr : list Event) : Prop := forallb is_callback tr = true.

(** The wait status the child watch [cw] was dispatched with (a child
    watch is dispatched once). *)
Fixpoint exit_status (cw : Z) (tr : list Event) : option Z :=
  match tr with
  | [] => None
  | EvChildWatch sid st :: tr' =>
      if sid =? cw then Some st else exit_status cw tr'
  | _ :: tr' => exit_status cw tr'
  end.

(** The child watch [cw] was dispatched: the child's exit was recorded. *)
Definition exit_seen (cw : Z) (tr : list Event) : bool :=
  match exit_status cw tr with Some _ => true | None => false end.

Definition is_eof (sid : Z) (e : Event) : bool :=
  match e with
  | EvIO s IoEof => s =? sid
  | _ => false
  end.

Definition is_read_error (e : Event) : bool :=
  match e with
  | EvIO _ (IoError _) => true
  | _ => false
  end.

(** A read of the channel watch [sid] reported end of stream. *)
Definition eof_seen (sid : Z) (tr : list Event) : bool := existsb (is_eof sid) tr.

(** A read reported a hard error. *)
Definition read_failed (tr : list Event) : bool := existsb is_read_error tr.

(** The chunks the reads of the channel watch [sid] returned, in order. *)
Fixpoint chunks (sid : Z) (tr : list Event) : list string :=
  match tr with
  | [] => []
  | EvIO s (IoNormal buf) :: tr' =>
      if s =? sid then buf :: chunks sid tr' else chunks sid tr'
  | _ :: tr' => chunks sid tr'
  end.

(** The bytes of a list of chunks. *)
Definition concat_bytes (l : list string) : string :=
  fold_right String.append EmptyString l.

(** What [git_reader_on_child_stdout] writes for one chunk, and for a list
    of chunks. *)
Definition stdout_frame (buf : string) : list string :=
  ["got stdout: " +:+ dquote; buf; dquote +:+ nl].

Definition frames (l : list string) : list string :=
  flat_map stdout_frame l.

(** ** The vocabulary of the claims *)

(** The world after a start whose spawn succeeds. *)
Definition started (args : list string) (pid : positive) (stdout_fd stderr_fd : Z)
           (w : World) : World :=
  fst (git_reader_start args (Spawned pid stdout_fd stderr_fd) w).

(** All three completion signals of the invocation started in [w1] occur
    in [tr]. *)
Definition all_signals (w1 : World) (tr : list Event) : bool :=
  exit_seen (child_watch_source (priv w1)) tr
  && eof_seen (child_stdout_source (priv w1)) tr
  && eof_seen (child_stderr_source (priv w1)) tr.

(** The three completion signals of the invocation started in [w1], the
    child watch being handed the wait status [st]. *)
Definition signals (w1 : World) (st : Z) : list Event :=
  [EvChildWatch (child_watch_source (priv w1)) st;
   EvIO (child_stdout_source (priv w1)) IoEof;
   EvIO (child_stderr_source (priv w1)) IoEof].

(** The diagnostic bytes read in [tr] by the invocation started in [w1]. *)
Definition stderr_bytes (w1 : World) (tr : list Event) : string :=
  concat_bytes (chunks (child_stderr_source (priv w1)) tr).

(** The result the join delivers for an exit status and the diagnostic
    bytes. *)
Definition join_result (st : Z) (diagnostic : string) : option GError :=
  snd (exit_error st diagnostic).

(** Empty, or white space only. *)
Fixpoint all_space (s : string) : bool :=
  match s with
  | EmptyString => true
  | String c r => isspace c && all_space r
  end.

(** The last byte of a string (NUL for the empty string). *)
Definition last_char (s : string) : ascii := char_at s (String.length s - 1)%nat.

(** The invocation [i] can no longer complete: a later one was started, or
    it is the latest and nothing of it is left. *)
Definition discarded (i : nat) (w : World) : Prop :=
  (i < invocation w)%nat \/ (i = invocation w /\ has_child (priv w) = false).

(** *** Sample data *)

(** The wait status of a child that called [exit (code)]. *)
Definition exited (code : Z) : Z := code * 256.

(** The error of a read that failed, and of a spawn that failed. *)
Definition io_error : GError := mkGError G_IO_CHANNEL_ERROR (LibraryCode 0) "read failed".

Definition enoent : GError :=
  mkGError G_SPAWN_ERROR (LibraryCode 8) "Failed to execute child process".

(** Diagnostic bytes, and traces of a first invocation whose child has
    process id 7 and whose sources have the ids 1 (child watch), 2 (stdout)
    and 3 (stderr). *)
Definition bad_object : string := "fatal: bad object" +:+ nl +:+ "   ".

Definition bad_object_trace : list Event :=
  [EvIO 3 (IoNormal bad_object); EvChildDies 7; EvIO 2 IoEof;
   EvChildWatch 1 (exited 1); EvIO 3 IoEof].

Definition blank : string := " " +:+ nl.

Definition two_chunks : list Event :=
  [EvIO 2 (IoNormal "ab"); EvIO 2 (IoNormal "c"); EvChildDies 7;
   EvChildWatch 1 0; EvIO 2 IoEof; EvIO 3 IoEof].

(** ** Invariants

    While an invocation is under way the reader's fields and the main
    context agree: a watch is attached exactly when its field is not
    zero.  [Ids] names the process and the three sources of the
    invocation; the booleans tell which of the three completion signals
    were recorded already. *)

Record Ids := mkIds {
  id_tag : nat; id_pid : positive; id_cw : positive; id_out : positive; id_err : positive
}.

Definition expected_source (k : Ids) (ex oc ec : bool) (sid : Z) : option Watch :=
  if bool_decide (sid = Z.pos (id_cw k))
  then (if ex then None else Some (mkWatch (WChild (Z.pos (id_pid k))) (id_tag k)))
  else if bool_decide (sid = Z.pos (id_out k))
  then (if oc then None else Some (mkWatch WStdout (id_tag k)))
  else if bool_decide (sid = Z.pos (id_err k))
  then (if ec then None else Some (mkWatch WStderr (id_tag k)))
  else None.

Record attached (k : Ids) (ex oc ec : bool) (w : World) : Prop := mkAttached {
  at_has : has_child (priv w) = true;
  at_tag : id_tag k = invocation w;
  at_pid : child_pid (priv w) = if ex then 0 else Z.pos (id_pid k);
  at_cw : child_watch_source (priv w) = Z.pos (id_cw k);
  at_out : child_stdout_source (priv w) = if oc then 0 else Z.pos (id_out k);
  at_err : child_stderr_source (priv w) = if ec then 0 else Z.pos (id_err k);
  at_ids : id_cw k ≠ id_out k ∧ id_cw k ≠ id_err k ∧ id_out k ≠ id_err k;
  at_src : ∀ sid, sources w !! sid = expected_source k ex oc ec sid;
  at_procs : if ex then procs w = ∅ else ∃ ps, procs w = <[ Z.pos (id_pid k) := ps ]> ∅;
  at_chan : channels w = {[ child_stdout (priv w) ]} ∪ {[ child_stderr (priv w) ]};
  at_none : completions_of (id_tag k) w = []
}.

Definition running (k : Ids) (ex oc ec : bool) (w : World) : Prop :=
  attached k ex oc ec w ∧ ex && oc && ec = false.

(** No invocation under way: nothing attached, no child, no pipe. *)
Record idle (w : World) : Prop := mkIdle {
  id_has : has_child (priv w) = false;
  id_src : sources w = ∅;
  id_procs : procs w = ∅;
  id_chan : channels w = ∅
}.

(** Every tag was completed at most once, and no tag of the future at
    all. *)
Definition log_ok (w : World) : Prop :=
  forall i, (length (completions_of i w) <= 1)%nat
            /\ ((invocation w < i)%nat -> completions_of i w = []).

Definition inv (w : World) : Prop :=
  0 < next_source_id w
  /\ log_ok w
  /\ (idle w \/ exists k ex oc ec, running k ex oc ec w).

(** ** The completion join, abstractly

    What the callbacks do to the three flags, the exit code, the
    diagnostic buffer, the child and the debug output, as a machine of its
    own.  The reader and this machine simulate each other, which reduces
    the claims about traces to facts about the machine. *)

Record Job := mkJob {
  j_ex : bool;                         (* the child's exit was recorded *)
  j_oc : bool;                         (* stdout reached end of stream *)
  j_ec : bool;                         (* stderr reached end of stream *)
  j_code : Z;                          (* child_exit_code *)
  j_buf : string;                      (* error_string *)
  j_proc : ProcState;                  (* the child, until its exit is recorded *)
  j_printed : list string;             (* debug output so far *)
  j_done : option (option GError)      (* the error of the completion, once emitted *)
}.

Definition job_finish (j : Job) : Job :=
  if j_ex j && j_oc j && j_ec j
  then mkJob (j_ex j) (j_oc j) (j_ec j) (j_code j)
             (fst (exit_error (j_code j) (j_buf j))) (j_proc j) (j_printed j)
             (Some (snd (exit_error (j_code j) (j_buf j))))
  else j.

Definition job_fail (err : GError) (j : Job) : Job :=
  mkJob (j_ex j) (j_oc j) (j_ec j) (j_code j) (j_buf j) (j_proc j) (j_printed j)
        (Some (Some err)).

Definition is_running (p : ProcState) : bool :=
  match p with Running => true | Zombie => false end.

Definition job_step (pid cw out err : Z) (e : Event) (j : Job) : option Job :=
  match j_done j with
  | Some _ => None
  | None =>
      match e with
      | EvStart _ _ | EvDispose => None
      | EvChildDies p =>
          if (p =? pid) && negb (j_ex j) && is_running (j_proc j)
          then Some (mkJob (j_ex j) (j_oc j) (j_ec j) (j_code j) (j_buf j) Zombie
                           (j_printed j) None)
          else None
      | EvChildWatch sid st =>
          if (sid =? cw) && negb (j_ex j) && negb (is_running (j_proc j))
          then Some (job_finish (mkJob true (j_oc j) (j_ec j) st (j_buf j) (j_proc j)
                                       (j_printed j) None))
          else None
      | EvIO sid r =>
          if negb (read_fits r) then None
          else if (sid =? out) && negb (j_oc j) then
            match r with
            | IoError e => Some (job_fail e j)
            | IoNormal b =>
                Some (mkJob (j_ex j) (j_oc j) (j_ec j) (j_code j) (j_buf j) (j_proc j)
                            (j_printed j ++ stdout_frame b) None)
            | IoEof =>
                Some (job_finish (mkJob (j_ex j) true (j_ec j) (j_code j) (j_buf j)
                                        (j_proc j) (j_printed j) None))
            | IoAgain => Some j
            end
          else if (sid =? err) && negb (j_ec j) then
            match r with
            | IoError e => Some (job_fail e j)
            | IoNormal b =>
                Some (mkJob (j_ex j) (j_oc j) (j_ec j) (j_code j) (j_buf j +:+ b)
                            (j_proc j) (j_printed j) None)
            | IoEof =>
                Some (job_finish (mkJob (j_ex j) (j_oc j) true (j_code j) (j_buf j)
                                        (j_proc j) (j_printed j) None))
            | IoAgain => Some j
            end
          else None
      end
  end.

Fixpoint job_run (pid cw out err : Z) (tr : list Event) (j : Job) : option Job :=
  match tr with
  | [] => Some j
  | e :: tr' =>
      match job_step pid cw out err e j with
      | Some j' => job_run pid cw out err tr' j'
      | None => None
      end
  end.

(** A job under way: no completion yet, and a signal still missing. *)
Definition pending (j : Job) : Prop :=
  j_done j = None /\ j_ex j && j_oc j && j_ec j = false.

(** What a trace of callbacks makes of a pending job, read off the trace. *)
Definition job_spec (cw out err : Z) (tr : list Event) (j j' : Job) : Prop :=
  j_printed j' = j_printed j ++ frames (chunks out tr)
  /\ if read_failed tr then exists e, j_done j' = Some (Some e)
     else j_ex j' = j_ex j || exit_seen cw tr
          /\ j_oc j' = j_oc j || eof_seen out tr
          /\ j_ec j' = j_ec j || eof_seen err tr
          /\ j_code j' = default (j_code j) (exit_status cw tr)
          /\ if j_ex j' && j_oc j' && j_ec j'
             then j_done j'
                  = Some (snd (exit_error (j_code j')
                                          (j_buf j +:+ concat_bytes (chunks err tr))))
             else j_done j' = None
                  /\ j_buf j' = j_buf j +:+ concat_bytes (chunks err tr).

(** The job of a fresh invocation. *)
Definition start_job (w1 : World) : Job :=
  mkJob false false false (child_exit_code (priv w1)) EmptyString Running [] None.

(** The job a world is running: [c0] are the completions emitted, and
    [p0] the debug output written, before the invocation started. *)
Definition sim (k : Ids) (c0 : list (nat * option GError)) (p0 : list string) (j : Job) (w : World) : Prop :=
  invocation w = id_tag k
  ∧ debug_output w = p0 ++ j_printed j
  ∧ child_exit_code (priv w) = j_code j
  ∧ error_string (priv w) = j_buf j
  ∧ match j_done j with
    | None => running k (j_ex j) (j_oc j) (j_ec j) w ∧ completions w = c0
              ∧ (j_ex j = false → procs w = <[Z.pos (id_pid k) := j_proc j]> ∅)
    | Some res => idle w ∧ completions w = c0 ++ [(id_tag k, res)]
    end.

(** ** Reads of a pipe *)

(** The event is a read of the channel watch [sid]. *)
Definition is_read (sid : Z) (e : Event) : bool :=
  match e with
  | EvIO s _ => s =? sid
  | _ => false
  end.

(** The stream watched by [sid] is closed for the job: the job is over, or
    the end of that stream was recorded. *)
Definition closed (out err sid : Z) (j : Job) : Prop :=
  j_done j <> None \/ (sid = out /\ j_oc j = true) \/ (sid = err /\ j_ec j = true).

(** * The source view ([src/git-source-view.c])

    The widget that paints an annotated source: for every line the
    abbreviated hash of its commit on a band of the commit's colour, then
    the text of the line. *)

Module SourceView.

(** Integer conversions of the target: [gint] and [guint] have 32 bits,
    [guint16] has 16. *)
Definition to_guint (z : Z) : Z := z mod 2 ^ 32.

Definition to_gint (z : Z) : Z :=
  let u := z mod 2 ^ 32 in
  if u <? 2 ^ 31 then u else u - 2 ^ 32.

Definition to_guint16 (z : Z) : Z := z mod 2 ^ 16.

(** The sum of two [gint]s; signed overflow is undefined. *)
Definition gint_add (a b : Z) : option Z :=
  let s := a + b in
  if (- 2 ^ 31 <=? s) && (s <? 2 ^ 31) then Some s else None.

(** [strlen]: a C string ends at its first NUL. *)
Definition strlen (s : string) : Z := Z.of_nat (String.length (c_str s)).

(** [pango_layout_set_text (layout, text, length)], as the text the layout
    holds afterwards: a negative [length] takes the string up to its NUL,
    any other at most [length] bytes of it.  The replacement of bytes that
    are not UTF-8 is left out. *)
Definition pango_layout_set_text (text : string) (length : Z) : string :=
  if length <? 0 then c_str text else c_str (str_take (Z.to_nat length) text).

Record GdkColor := mkColor { red : Z; green : Z; blue : Z }.

Record GdkRectangle := mkRect {
  rect_x : Z; rect_y : Z; rect_width : Z; rect_height : Z
}.

(** A commit, as far as the view asks: [git_commit_get_hash] and
    [git_commit_get_color] (git-commit.c is not among the sources). *)
Record GitCommit := mkCommit {
  git_commit_get_hash : string;
  git_commit_get_color : GdkColor
}.

(** [GitAnnotatedSourceLine] (git-annotated-source.h). *)
Record GitAnnotatedSourceLine := mkLine {
  commit : GitCommit;
  text : string
}.

(** An annotated source is taken as the list of its lines
    (git-annotated-source.c is not among the sources):
    [git_annotated_source_get_n_lines] is the length, and
    [git_annotated_source_get_line] the line at an index below it. *)
Definition GitAnnotatedSource := list GitAnnotatedSourceLine.

Definition git_annotated_source_get_n_lines (source : GitAnnotatedSource) : Z :=
  Z.of_nat (length source).

Definition git_annotated_source_get_line (source : GitAnnotatedSource) (line_num : Z)
  : option GitAnnotatedSourceLine :=
  if line_num <? 0 then None else source !! Z.to_nat line_num.

Definition GIT_SOURCE_VIEW_COMMIT_HASH_LENGTH : Z := 6.
Definition GIT_SOURCE_VIEW_GAP : Z := 3.

(** The view: the fields of [struct _GitSourceViewPrivate] that painting
    and measuring use, with the allocation and the realized flag of the
    widget.  The loading source and the scroll adjustments are not part of
    this model. *)
Record GitSourceView := mkView {
  paint_source : option GitAnnotatedSource;
  line_height : Z;                (* guint *)
  max_line_width : Z;             (* guint *)
  max_hash_length : Z;            (* guint *)
  x_offset : Z;                   (* gint *)
  y_offset : Z;                   (* gint *)
  allocation : GdkRectangle;      (* widget->allocation *)
  realized : bool                 (* GTK_WIDGET_REALIZED (widget) *)
}.

(** The loop of [git_source_view_set_text_for_line],
    [while (len > 0 && isspace (line->text[len - 1])) len--;]. *)
Fixpoint rtrim (text : string) (len : nat) : nat :=
  match len with
  | O => O
  | S n => if isspace (char_at text n) then rtrim text n else len
  end.

(** [git_source_view_set_text_for_line (layout, line)], as the text the
    layout holds afterwards.  [len] is an [int]. *)
Definition git_source_view_set_text_for_line (line : GitAnnotatedSourceLine) : string :=
  let len := to_gint (strlen (text line)) in
  let len := if 0 <? len then Z.of_nat (rtrim (text line) (Z.to_nat len)) else len in
  pango_layout_set_text (text line) len.

(** [git_source_view_set_text_for_commit (layout, commit)]. *)
Definition git_source_view_set_text_for_commit (commit : GitCommit) : string :=
  let hash := git_commit_get_hash commit in
  let len := to_gint (strlen hash) in
  let len := if GIT_SOURCE_VIEW_COMMIT_HASH_LENGTH <? len
             then GIT_SOURCE_VIEW_COMMIT_HASH_LENGTH else len in
  pango_layout_set_text hash len.

(** What [git_source_view_expose_event] asks of cairo and GTK, in order.
    Coordinates are kept as the integers they are converted from; a
    colour is kept as the [GdkColor] whose channels are divided by
    [65535.0]. *)
Inductive Draw :=
| Cairo_set_source_rgb (color : GdkColor)
| Cairo_rectangle (x y width height : Z)
| Cairo_fill_preserve
| Cairo_save
| Cairo_clip
| Cairo_move_to (x y : Z)
| Pango_cairo_show_layout (layout : string)
| Cairo_restore
| Gtk_paint_layout (clip_rect : GdkRectangle) (x y : Z) (layout : string).

(** [color.red = ~color.red;] and so on, on [guint16] channels. *)
Definition invert (color : GdkColor) : GdkColor :=
  mkColor (to_guint16 (Z.lnot (red color))) (to_guint16 (Z.lnot (green color)))
          (to_guint16 (Z.lnot (blue color))).

(** The body of the loop of [git_source_view_expose_event] for the line
    [line_num].  [y] is a [gint] computed on [gsize]; the horizontal
    position of the text is computed on [guint] and passed as a [gint]. *)
Definition draw_line (v : GitSourceView) (line_num : Z) (line : GitAnnotatedSourceLine)
  : list Draw :=
  let y := to_gint (line_num * line_height v - y_offset v) in
  let color := git_commit_get_color (commit line) in
  let clip_rect :=
    mkRect (to_gint (max_hash_length v + GIT_SOURCE_VIEW_GAP))
           y (rect_width (allocation v)) (to_gint (line_height v)) in
  [Cairo_set_source_rgb color;
   Cairo_rectangle 0 y (max_hash_length v) (line_height v);
   Cairo_fill_preserve;
   Cairo_set_source_rgb (invert color);
   Cairo_save; Cairo_clip; Cairo_move_to 0 y;
   Pango_cairo_show_layout (git_source_view_set_text_for_commit (commit line));
   Cairo_restore;
   Gtk_paint_layout clip_rect
               (to_gint (- x_offset v + max_hash_length v + GIT_SOURCE_VIEW_GAP)) y
               (git_source_view_set_text_for_line line)].

(** [for (line_num = line_start; line_num < line_end; line_num++)], given
    the number of rounds left; [None] when a line outside the source is
    asked for, or [-priv->x_offset] overflows. *)
Fixpoint draw_lines (v : GitSourceView) (source : GitAnnotatedSource)
         (line_num : Z) (rounds : nat) : option (list Draw) :=
  match rounds with
  | O => Some []
  | S n =>
      match git_annotated_source_get_line source line_num with
      | Some line =>
          if x_offset v =? - 2 ^ 31 then None
          else
            match draw_lines v source (line_num + 1) n with
            | Some rest => Some (draw_line v line_num line ++ rest)
            | None => None
            end
      | None => None
      end
  end.

(** The lines [git_source_view_expose_event] paints for an exposed area:
    from [line_start] up to, not including, [line_end].  The sums are
    formed on [gint]; the divisions are unsigned. *)
Definition exposed_lines (v : GitSourceView) (n_lines : Z) (area : GdkRectangle)
  : option (Z * Z) :=
  match gint_add (rect_y area) (y_offset v) with
  | Some top =>
      match gint_add top (rect_height area) with
      | Some bottom =>
          let line_start := to_guint top / line_height v in
          let line_end := to_guint (bottom + line_height v - 1) / line_height v in
          let line_end := if n_lines <? line_end then n_lines else line_end in
          let line_start := if line_end <? line_start then line_end else line_start in
          Some (line_start, line_end)
      | None => None
      end
  | None => None
  end.

(** [git_source_view_expose_event (widget, event)] on [event->area]: what
    is drawn, and the returned [gboolean]. *)
Definition git_source_view_expose_event (v : GitSourceView) (area : GdkRectangle)
  : option (list Draw * bool) :=
  match paint_source v with
  | Some source =>
      if line_height v =? 0 then Some ([], false)
      else
        match exposed_lines v (git_annotated_source_get_n_lines source) area with
        | Some (line_start, line_end) =>
            match draw_lines v source line_start (Z.to_nat (line_end - line_start)) with
            | Some draws => Some (draws, false)
            | None => None
            end
        | None => None
        end
  | None => Some ([], false)
  end.

(** One round of the loop of [git_source_view_calculate_line_height] on
    the three maxima, [extents] being the logical rectangle
    [pango_layout_get_pixel_extents] reports for a text.  The rectangle's
    [int]s are compared with, and stored in, [guint]s. *)
Definition measure_line (extents : string -> GdkRectangle)
           (acc : Z * Z * Z) (line : GitAnnotatedSourceLine) : Z * Z * Z :=
  let '(line_height, max_line_width, max_hash_length) := acc in
  let logical_rect := extents (git_source_view_set_text_for_line line) in
  let line_height :=
    if line_height <? to_guint (rect_height logical_rect)
    then to_guint (rect_height logical_rect) else line_height in
  let max_line_width :=
    if max_line_width <? to_guint (rect_width logical_rect)
    then to_guint (rect_width logical_rect) else max_line_width in
  let logical_rect := extents (git_source_view_set_text_for_commit (commit line)) in
  let line_height :=
    if line_height <? to_guint (rect_height logical_rect)
    then to_guint (rect_height logical_rect) else line_height in
  let max_hash_length :=
    if max_hash_length <? to_guint (rect_width logical_rect)
    then to_guint (rect_width logical_rect) else max_hash_length in
  (line_height, max_line_width, max_hash_length).

(** [git_source_view_calculate_line_height], on the three fields it
    writes, for a source of fewer than 2^31 lines ([line_num] is an
    [int]); the boolean tells whether it went on to update the scroll
    adjustments, which are not part of this model. *)
Definition git_source_view_calculate_line_height (extents : string -> GdkRectangle)
           (v : GitSourceView) : GitSourceView * bool :=
  match paint_source v with
  | Some source =>
      if (line_height v =? 0) && realized v then
        let '(line_height, max_line_width, max_hash_length) :=
          fold_left (measure_line extents) source (1, 1, 1) in
        (mkView (paint_source v) line_height max_line_width
                (to_guint (max_hash_length + GIT_SOURCE_VIEW_GAP * 2))
                (x_offset v) (y_offset v) (allocation v) (realized v),
         true)
      else (v, false)
  | None => (v, false)
  end.

(** The three maxima of the measuring loop hold a line: its text and its
    hash are no taller than the first, its text no wider than the second,
    its hash no wider than the third. *)
Definition holds (extents : string -> GdkRectangle) (m : Z * Z * Z)
           (line : GitAnnotatedSourceLine) : Prop :=
  let '(h, w, g) := m in
  to_guint (rect_height (extents (git_source_view_set_text_for_line line))) <= h
  /\ to_guint (rect_height (extents (git_source_view_set_text_for_commit (commit line))))
     <= h
  /\ to_guint (rect_width (extents (git_source_view_set_text_for_line line))) <= w
  /\ to_guint (rect_width (extents (git_source_view_set_text_for_commit (commit line))))
     <= g.

Definition below (m m' : Z * Z * Z) : Prop :=
  let '(h, w, g) := m in
  let '(h', w', g') := m' in
  h <= h' /\ w <= w' /\ g <= g'.

End SourceView.

(** * The commit dialog ([src/git-commit-dialog.c])

    The dialog that shows one commit: a table with the hash of the commit
    and of its parents, and a text view with the log message.  The dialog
    holds a reference on its commit and a handler on the commit's
    [notify::has-log-data] signal, which runs [git_commit_dialog_update]. *)

Module CommitDialog.

(** A commit object, as far as the dialog asks (git-commit.c is not among
    the sources): what [git_commit_get_hash],
    [git_commit_get_has_log_data], [git_commit_get_log_data] and
    [git_commit_get_parents] return.  A pointer to an object is a number,
    [0] for [NULL]. *)
Record GitCommitObject := mkCommitObject {
  hash : string;
  has_log_data : bool;
  log_data : string;
  parents : list Z
}.

(** A [GtkLabel]: made by [gtk_label_new (str)], or by
    [gtk_label_new (NULL)] and [gtk_label_set_markup]. *)
Record GtkLabel := mkLabel { use_markup : bool; label : string }.

(** [GtkAttachOptions]. *)
Definition GTK_EXPAND : Z := 1.
Definition GTK_SHRINK : Z := 2.
Definition GTK_FILL : Z := 4.

(** A child of the table, as [gtk_table_attach] placed it (the paddings
    are [0] throughout). *)
Record GtkTableChild := mkChild {
  widget : GtkLabel;
  left_attach : Z; right_attach : Z; top_attach : Z; bottom_attach : Z;
  xoptions : Z; yoptions : Z
}.

(** [struct _GitCommitDialogPrivate].  The table is represented by its
    children and the text view by the text of its buffer, [None] being
    [NULL]. *)
Record GitCommitDialogPrivate := mkDialogPriv {
  commit : Z;
  has_log_data_handler : Z;       (* guint *)
  table : option (list GtkTableChild);
  log_view : option string
}.

(** What the dialog does to the outside. *)
Inductive DialogEffect :=
| FetchLogData (commit : Z)       (* git_commit_fetch_log_data *)
| Notify (property : string)      (* g_object_notify (cdiag, property) *)
| Critical                        (* a failed g_return_if_fail *)
| NoSuchHandler (id : Z)          (* g_signal_handler_disconnect finds nothing *)
| InvalidPropertyId (id : Z).     (* G_OBJECT_WARN_INVALID_PROPERTY_ID *)

(** The dialog and the commit objects around it: their data, their
    reference counts, and the handlers connected on them that run
    [git_commit_dialog_update] on this dialog (handler id to instance). *)
Record DialogWorld := mkDialogWorld {
  priv : GitCommitDialogPrivate;
  commits : gmap Z GitCommitObject;
  ref_count : gmap Z nat;
  handlers : gmap Z Z;
  effects : list DialogEffect
}.

Definition upd_dialog_priv (f : GitCommitDialogPrivate -> GitCommitDialogPrivate)
           (w : DialogWorld) :=
  mkDialogWorld (f (priv w)) (commits w) (ref_count w) (handlers w) (effects w).
Definition dialog_emit (e : DialogEffect) (w : DialogWorld) :=
  mkDialogWorld (priv w) (commits w) (ref_count w) (handlers w) (effects w ++ [e]).

Definition set_commit (v : Z) (p : GitCommitDialogPrivate) :=
  mkDialogPriv v (has_log_data_handler p) (table p) (log_view p).
Definition set_has_log_data_handler (v : Z) (p : GitCommitDialogPrivate) :=
  mkDialogPriv (commit p) v (table p) (log_view p).
Definition set_table (v : option (list GtkTableChild)) (p : GitCommitDialogPrivate) :=
  mkDialogPriv (commit p) (has_log_data_handler p) v (log_view p).
Definition set_log_view (v : option string) (p : GitCommitDialogPrivate) :=
  mkDialogPriv (commit p) (has_log_data_handler p) (table p) v.

(** *** GObject *)

(** [GIT_IS_COMMIT (commit)]: the pointer is to a commit that was not
    finalized. *)
Definition GIT_IS_COMMIT (c : Z) (w : DialogWorld) : bool :=
  match ref_count w !! c with
  | Some _ => true
  | None => false
  end.

Definition g_object_ref (c : Z) (w : DialogWorld) : DialogWorld :=
  match ref_count w !! c with
  | Some n =>
      mkDialogWorld (priv w) (commits w) (<[c := S n]> (ref_count w)) (handlers w)
                    (effects w)
  | None => w
  end.

(** Dropping the last reference finalizes the object; its handlers go
    with it. *)
Definition g_object_unref (c : Z) (w : DialogWorld) : DialogWorld :=
  match ref_count w !! c with
  | Some (S (S n)) =>
      mkDialogWorld (priv w) (commits w) (<[c := S n]> (ref_count w)) (handlers w)
                    (effects w)
  | Some _ =>
      mkDialogWorld (priv w) (delete c (commits w)) (delete c (ref_count w))
                    (filter (fun kv => kv.2 <> c) (handlers w)) (effects w)
  | None => w
  end.

(** [g_signal_connect_swapped (commit, "notify::has-log-data",
    git_commit_dialog_update, cdiag)]; [id] is the handler id GLib hands
    out. *)
Definition g_signal_connect_swapped (c : Z) (id : Z) (w : DialogWorld) : DialogWorld :=
  mkDialogWorld (priv w) (commits w) (ref_count w) (<[id := c]> (handlers w))
                (effects w).

Definition g_signal_handler_disconnect (c : Z) (id : Z) (w : DialogWorld) : DialogWorld :=
  match handlers w !! id with
  | Some c' =>
      if c' =? c
      then mkDialogWorld (priv w) (commits w) (ref_count w) (delete id (handlers w))
                         (effects w)
      else dialog_emit (NoSuchHandler id) w
  | None => dialog_emit (NoSuchHandler id) w
  end.

(** The accessors of git-commit.c read the commit object. *)
Definition git_commit_get_hash (objects : gmap Z GitCommitObject) (c : Z) : string :=
  match objects !! c with Some d => hash d | None => EmptyString end.
Definition git_commit_get_has_log_data (objects : gmap Z GitCommitObject) (c : Z)
  : bool :=
  match objects !! c with Some d => has_log_data d | None => false end.
Definition git_commit_get_log_data (objects : gmap Z GitCommitObject) (c : Z)
  : string :=
  match objects !! c with Some d => log_data d | None => EmptyString end.
Definition git_commit_get_parents (objects : gmap Z GitCommitObject) (c : Z)
  : list Z :=
  match objects !! c with Some d => parents d | None => [] end.

Definition PROP_COMMIT : Z := 1.

Section Dialog.

(** [_()] of intl.h: the translation of a message. *)
Variable gettext : string -> string.

(** [git_commit_dialog_new], with [git_commit_dialog_init]: an empty table
    and an empty text view, no commit. *)
Definition git_commit_dialog_new (commits : gmap Z GitCommitObject)
           (ref_count : gmap Z nat) : DialogWorld :=
  mkDialogWorld (mkDialogPriv 0 0 (Some []) (Some EmptyString)) commits ref_count ∅ [].

(** [git_commit_dialog_unref_commit]. *)
Definition git_commit_dialog_unref_commit (w : DialogWorld) : DialogWorld :=
  if commit (priv w) =? 0 then w
  else
    let w := g_signal_handler_disconnect (commit (priv w))
                                         (has_log_data_handler (priv w)) w in
    let w := g_object_unref (commit (priv w)) w in
    upd_dialog_priv (set_commit 0) w.

(** [git_commit_dialog_dispose], up to the parent class. *)
Definition git_commit_dialog_dispose (w : DialogWorld) : DialogWorld :=
  let w := git_commit_dialog_unref_commit w in
  let w := upd_dialog_priv (set_table None) w in
  upd_dialog_priv (set_log_view None) w.

(** The two labels of a row of the table. *)
Definition row (title : string) (hash : string) (y : Z) : list GtkTableChild :=
  [mkChild (mkLabel true (gettext title)) 0 1 y (y + 1)
           (Z.lor GTK_FILL GTK_SHRINK) (Z.lor GTK_FILL GTK_SHRINK);
   mkChild (mkLabel false hash) 1 2 y (y + 1)
           (Z.lor (Z.lor GTK_FILL GTK_SHRINK) GTK_EXPAND) (Z.lor GTK_FILL GTK_SHRINK)].

(** The loop of [git_commit_dialog_update] over the parents,
    [for (node = ...; node; node = node->next, y++)]. *)
Fixpoint parent_rows (objects : gmap Z GitCommitObject) (node : list Z) (y : Z)
  : list GtkTableChild :=
  match node with
  | [] => []
  | c :: next =>
      row "<b>Parent</b>" (git_commit_get_hash objects c) y
      ++ parent_rows objects next (y + 1)
  end.

(** [git_commit_dialog_update]: the children of the table are listed in
    the order they are attached. *)
Definition git_commit_dialog_update (w : DialogWorld) : DialogWorld :=
  let c := commit (priv w) in
  let w :=
    match table (priv w) with
    | Some _ =>
        upd_dialog_priv
          (set_table
             (Some (if c =? 0 then []
                    else row "<b>Commit</b>" (git_commit_get_hash (commits w) c) 0
                         ++ (if git_commit_get_has_log_data (commits w) c
                             then parent_rows (commits w)
                                              (git_commit_get_parents (commits w) c) 1
                             else []))))
          w
    | None => w
    end in
  match log_view (priv w) with
  | Some _ =>
      upd_dialog_priv
        (set_log_view
           (Some (if c =? 0 then EmptyString
                  else if git_commit_get_has_log_data (commits w) c
                       then git_commit_get_log_data (commits w) c
                       else gettext "Loading...")))
        w
  | None => w
  end.

(** [git_commit_dialog_set_commit (cdiag, commit)]; [id] is the handler id
    the connection gets, stored in a [guint]. *)
Definition git_commit_dialog_set_commit (c : Z) (id : Z) (w : DialogWorld)
  : DialogWorld :=
  if negb (c =? 0) && negb (GIT_IS_COMMIT c w) then dialog_emit Critical w
  else
    let w := if c =? 0 then w else g_object_ref c w in
    let w := git_commit_dialog_unref_commit w in
    let w := upd_dialog_priv (set_commit c) w in
    let w := if c =? 0 then w
             else
               let w := g_signal_connect_swapped c id w in
               let w :=
                 upd_dialog_priv (set_has_log_data_handler (id mod 2 ^ 32)) w in
               dialog_emit (FetchLogData c) w in
    let w := git_commit_dialog_update w in
    dialog_emit (Notify "commit") w.

(** [git_commit_dialog_get_commit]. *)
Definition git_commit_dialog_get_commit (w : DialogWorld) : Z := commit (priv w).

(** [git_commit_dialog_set_property] on a [GValue] that holds an
    object. *)
Definition git_commit_dialog_set_property (property_id : Z) (value : Z) (id : Z)
           (w : DialogWorld) : DialogWorld :=
  if property_id =? PROP_COMMIT then git_commit_dialog_set_commit value id w
  else dialog_emit (InvalidPropertyId property_id) w.

(** [git_commit_dialog_get_property]: the world, and the object the
    [GValue] is set to, if it is set. *)
Definition git_commit_dialog_get_property (property_id : Z) (w : DialogWorld)
  : DialogWorld * option Z :=
  if property_id =? PROP_COMMIT then (w, Some (git_commit_dialog_get_commit w))
  else (dialog_emit (InvalidPropertyId property_id) w, None).

(** What can happen to a dialog: its commit is set, it is disposed, or a
    commit receives its log data and notifies its [has-log-data]
    property, which runs every handler connected on it. *)
Inductive DialogEvent :=
| EvSetCommit (c : Z) (id : Z)
| EvDispose
| EvLogData (c : Z) (log : string) (parents : list Z).

Definition connected_on (c : Z) (w : DialogWorld) : nat :=
  length (filter (fun kv => kv.2 = c) (map_to_list (handlers w))).

(** One event; [None] when it cannot happen: a handler id is positive and
    not in use, and only a live commit receives log data. *)
Definition dialog_step (e : DialogEvent) (w : DialogWorld) : option DialogWorld :=
  match e with
  | EvSetCommit c id =>
      if (0 <? id) && negb (bool_decide (is_Some (handlers w !! id)))
      then Some (git_commit_dialog_set_commit c id w)
      else None
  | EvDispose => Some (git_commit_dialog_dispose w)
  | EvLogData c log ps =>
      match commits w !! c with
      | Some d =>
          let w := mkDialogWorld (priv w)
                                 (<[c := mkCommitObject (hash d) true log ps]> (commits w))
                                 (ref_count w) (handlers w) (effects w) in
          Some (Nat.iter (connected_on c w) git_commit_dialog_update w)
      | None => None
      end
  end.

Fixpoint dialog_run (tr : list DialogEvent) (w : DialogWorld)
  : option DialogWorld :=
  match tr with
  | [] => Some w
  | e :: tr' =>
      match dialog_step e w with
      | Some w' => dialog_run tr' w'
      | None => None
      end
  end.





(** Sample data: two commits, each referenced once; the log data of the
    first has not arrived yet. *)
Definition sample_commits : gmap Z GitCommitObject :=
  <[100 := mkCommitObject "3f2a9c01" false EmptyString []]>
    (<[200 := mkCommitObject "77aa01ff" true "Initial import" []]> ∅).

Definition sample_refs : gmap Z nat := <[100 := 1%nat]> (<[200 := 1%nat]> ∅).

End Dialog.

End CommitDialog.

(** * Proofs *)

Example exit_error_bad_object :
  snd (exit_error 1 ("fatal: bad object" +:+ nl +:+ "   "))
  = Some (mkGError GIT_ERROR GIT_ERROR_EXIT_STATUS
                   "Error invoking git: fatal: bad objec").
Proof. reflexivity. Qed.

Example exit_error_one_char :
  exit_error 1 "x" = ("", Some (mkGError GIT_ERROR GIT_ERROR_EXIT_STATUS generic_message)).
Proof. reflexivity. Qed.

Example exit_error_empty :
  exit_error 256 "" = ("", Some (mkGError GIT_ERROR GIT_ERROR_EXIT_STATUS generic_message)).
Proof. reflexivity. Qed.

(** ** Symbolic execution of the reader's functions

    The reader's functions are run on a world whose fields are variables;
    what is left are goals on the maps and sets of the world. *)

Set Warnings "-clear-no-such-hyp".

Ltac conjs := repeat match goal with |- _ /\ _ => split end.

Ltac world_cases :=
  repeat match goal with
         | w : World |- _ => destruct w as [[] ? ? ? ? ? ?]
         | k : Ids |- _ => destruct k
         end; cbn in *.

Ltac wsimpl :=
  cbv beta iota zeta delta
      [git_reader_close_process git_reader_dispose git_reader_check_complete
       git_reader_on_child_exit git_reader_on_read_error
       git_reader_on_child_stdout git_reader_on_child_stderr git_reader_start
       g_source_remove g_source_attach g_io_channel_shutdown wait_or_kill
       upd_priv upd_sources upd_channels upd_procs emit
       set_has_child set_child_pid set_child_stdout set_child_stderr
       set_child_watch_source set_child_stdout_source set_child_stderr_source
       set_child_exit_code set_error_string
       has_child child_pid child_stdout child_stderr child_watch_source
       child_stdout_source child_stderr_source child_exit_code error_string
       priv sources next_source_id channels procs invocation effects
       id_tag id_pid id_cw id_out id_err fst snd andb Z.eqb].

Ltac src_solve :=
  try (apply map_eq; intros ?sid; rewrite ?lookup_empty);
  try (intros ?sid);
  rewrite ?lookup_delete, ?lookup_insert;
  repeat match goal with
         | H : ∀ sid, _ !! sid = expected_source _ _ _ _ sid |- _ => rewrite H
         end;
  unfold expected_source; cbn;
  repeat (case_decide || case_bool_decide); subst; try done; try congruence; try lia.

Lemma expected_empty k sid : expected_source k true true true sid = None.
Proof. unfold expected_source. repeat case_bool_decide; done. Qed.

Lemma close_attached k ex oc ec w kill :
  attached k ex oc ec w -> (kill = true \/ ex = true) ->
  idle (git_reader_close_process kill w)
  /\ priv (git_reader_close_process kill w)
     = set_child_pid 0 (set_has_child false (priv w))
  /\ invocation (git_reader_close_process kill w) = invocation w
  /\ next_source_id (git_reader_close_process kill w) = next_source_id w
  /\ effects (git_reader_close_process kill w)
     = effects w ++ (if kill then
                       match procs w !! Z.pos (id_pid k) with
                       | Some Running => [Sigterm (Z.pos (id_pid k))]
                       | _ => []
                       end
                     else []).
Proof.
  intros [] Hk. world_cases. subst.
  destruct ex, oc, ec, kill; try (destruct Hk; discriminate).
  all: try match goal with
           | H : exists ps, _ = _ |- _ => destruct H as [ps ->]; destruct ps
           end.
  all: subst; wsimpl; rewrite ?lookup_insert_eq, ?lookup_empty; wsimpl.
  all: repeat split; wsimpl; rewrite ?app_nil_r, ?delete_insert_eq, ?delete_empty.
  all: try reflexivity.
  all: try match goal with
           | |- @eq (gset Z) _ _ => set_solver
           | |- @eq (gmap Z Watch) _ _ => src_solve
           end.
Qed.

Lemma pos_eqb_neq p q : p ≠ q -> (Z.pos p =? Z.pos q) = false.
Proof. intros H. apply Z.eqb_neq. congruence. Qed.

Lemma pos_eqb_neq' p q : p ≠ q -> (Z.pos q =? Z.pos p) = false.
Proof. intros H. apply Z.eqb_neq. congruence. Qed.

Lemma omap_snoc {A B} (f : A -> option B) l x :
  omap f (l ++ [x]) = omap f l ++ match f x with Some y => [y] | None => [] end.
Proof. rewrite omap_app. cbn. destruct (f x); reflexivity. Qed.

Ltac log_simpl :=
  unfold completions, completions_of, debug_output in *; cbn [effects] in *;
  rewrite ?omap_snoc, ?Nat.eqb_refl, ?app_nil_r, <- ?app_assoc; cbn [app].

Ltac sim_goal :=
  unfold sim, running; wsimpl;
  repeat match goal with
         | |- context [exit_error ?c ?b] => destruct (exit_error c b) as [? ?]
         end;
  wsimpl; cbn [j_done j_ex j_oc j_ec j_code j_buf j_proc j_printed fst snd];
  repeat match goal with
         | |- _ /\ _ => split
         | |- attached _ _ _ _ _ => constructor
         | |- idle _ => constructor
         end; wsimpl; log_simpl;
  try reflexivity; try assumption; try tauto; try congruence;
  try match goal with
      | |- ∃ ps, _ = <[_ := ps]> ∅ => eexists; rewrite ?insert_insert_eq; reflexivity
      | |- _ = _ -> _ =>
          intros ?; try discriminate; rewrite ?insert_insert_eq; reflexivity
      | |- @eq (gset Z) _ _ => set_solver
      | |- @eq (gmap Z Watch) _ _ => src_solve
      | |- ∀ sid, _ !! sid = _ => src_solve
      | |- @eq (gmap Z ProcState) _ _ => rewrite ?delete_insert_eq, ?delete_empty; reflexivity
      end.

Ltac next_goal :=
  wsimpl;
  repeat match goal with
         | |- context [exit_error ?c ?b] => destruct (exit_error c b) as [? ?]
         end;
  reflexivity.

Ltac job_exec :=
  unfold job_step, job_finish, job_fail;
  cbn [j_done j_ex j_oc j_ec j_code j_buf j_proc j_printed negb andb read_fits
       is_running];
  repeat match goal with
         | |- context [Z.pos ?p =? Z.pos ?p] => rewrite (Z.eqb_refl (Z.pos p))
         | H : ?p ≠ ?q |- context [Z.pos ?p =? Z.pos ?q] => rewrite (pos_eqb_neq p q H)
         | H : ?p ≠ ?q |- context [Z.pos ?q =? Z.pos ?p] => rewrite (pos_eqb_neq' p q H)
         end;
  cbn [j_done j_ex j_oc j_ec j_code j_buf j_proc j_printed negb andb is_running].

Lemma sim_step k c0 p0 j w e w' :
  sim k c0 p0 j w -> step e w = Some w' -> is_callback e = true ->
  exists j', job_step (Z.pos (id_pid k)) (Z.pos (id_cw k)) (Z.pos (id_out k))
                      (Z.pos (id_err k)) e j = Some j'
             /\ sim k c0 p0 j' w'
             /\ next_source_id w' = next_source_id w.
Proof.
  intros (Hinv & Hpr & Hcode & Hbuf & Hst) Hstep Hcb.
  destruct j as [ex oc ec code buf jp pr [res|]]; cbn in *.
  - destruct Hst as [[] _]. world_cases. subst.
    destruct e as [| | pid | sid st | sid r]; try discriminate; cbn in Hstep.
    all: rewrite ?lookup_empty in Hstep; try destruct (read_fits r); discriminate.
  - destruct Hst as ([[] Hpend] & Hc & Hjp). destruct at_ids0 as (Hn1 & Hn2 & Hn3).
    assert (Hps : procs w = if ex then ∅ else <[Z.pos (id_pid k) := jp]> ∅)
      by (destruct ex; auto).
    clear at_procs0 Hjp.
    destruct e as [| | pid | sid st | sid r]; try discriminate; unfold step in Hstep.
    + (* the child terminates *)
      rewrite Hps in Hstep. destruct ex; [rewrite lookup_empty in Hstep; discriminate |].
      rewrite lookup_insert in Hstep.
      case_decide; [| rewrite lookup_empty in Hstep; discriminate].
      destruct jp; [| discriminate]. injection Hstep as <-. subst pid.
      job_exec. eexists; split; [reflexivity |].
      split; [| reflexivity]. world_cases. subst. sim_goal.
    + (* the child watch is dispatched *)
      rewrite at_src0 in Hstep. unfold expected_source in Hstep.
      repeat case_bool_decide; destruct ex, oc, ec; try discriminate.
      all: rewrite Hps, lookup_insert_eq in Hstep.
      all: destruct jp; try discriminate; injection Hstep as <-; subst sid.
      all: job_exec.
      all: eexists; split; [reflexivity|].
      all: world_cases; subst; split; [sim_goal | next_goal].
    + (* a channel watch is dispatched *)
      destruct (read_fits r) eqn:Hfits; [| discriminate].
      rewrite at_src0 in Hstep. unfold expected_source in Hstep.
      repeat case_bool_decide; destruct ex, oc, ec; try discriminate; subst sid.
      all: destruct r as [err | b | |]; cbn in Hfits.
      all: cbn [git_reader_on_child_stdout git_reader_on_child_stderr] in Hstep.
      all: try match type of Hstep with
               | context [git_reader_on_read_error] => destruct jp
               end.
      all: injection Hstep as <-.
      all: job_exec; rewrite ?Hfits; job_exec.
      all: eexists; (split; [reflexivity|]).
      all: world_cases; subst; wsimpl; rewrite ?lookup_insert_eq.
      all: split; [sim_goal | next_goal].
      all: rewrite Hpr, <- app_assoc; reflexivity.
Qed.

(** ** The log and the invariant *)

Lemma completions_of_select i w : completions_of i w = select i (completions w).
Proof.
  unfold completions_of, completions, select.
  induction (effects w) as [| e l IH]; [reflexivity |].
  destruct e; cbn; try assumption.
  destruct (Nat.eqb i tag); cbn; congruence.
Qed.

Lemma select_snoc i l t res :
  select i (l ++ [(t, res)]) = select i l ++ (if Nat.eqb i t then [res] else []).
Proof. unfold select. rewrite omap_snoc. cbn. destruct (Nat.eqb i t); reflexivity. Qed.

Lemma inv_new : inv git_reader_new.
Proof.
  split; [reflexivity |]. split.
  - intros i. split; [cbn; lia | reflexivity].
  - left. constructor; reflexivity.
Qed.

Lemma idle_not_running k ex oc ec w : idle w -> running k ex oc ec w -> False.
Proof. intros [] [[] _]. congruence. Qed.

Lemma close_inv w :
  inv w ->
  idle (git_reader_close_process true w)
  /\ invocation (git_reader_close_process true w) = invocation w
  /\ next_source_id (git_reader_close_process true w) = next_source_id w
  /\ effects (git_reader_close_process true w) = effects w ++ kills w
  /\ error_string (priv (git_reader_close_process true w)) = error_string (priv w)
  /\ child_exit_code (priv (git_reader_close_process true w))
     = child_exit_code (priv w).
Proof.
  intros (_ & _ & [Hidle | (k & ex & oc & ec & Hrun & _)]).
  - unfold git_reader_close_process, kills. destruct Hidle as [Hhas ? ? ?].
    rewrite Hhas, app_nil_r. repeat split; assumption.
  - destruct (close_attached k ex oc ec w true Hrun (or_introl eq_refl))
      as (Hidle & Hpriv & Hinv & Hnext & Heff).
    split; [exact Hidle |].
    rewrite Hpriv, Hinv, Hnext, Heff. repeat split; try reflexivity.
    f_equal. unfold kills. destruct Hrun. rewrite at_has0, at_pid0.
    destruct ex; [| reflexivity].
    rewrite at_procs0, !lookup_empty. reflexivity.
Qed.

Lemma g_string_truncate_0 s : g_string_truncate s 0 = EmptyString.
Proof.
  unfold g_string_truncate. change (to_gsize 0) with 0.
  rewrite Z.min_l by lia. destruct s; reflexivity.
Qed.

Lemma kills_completions_of i w :
  omap (fun e => match e with
                 | Completed j err => if Nat.eqb i j then Some err else None
                 | _ => None
                 end) (kills w) = [].
Proof.
  unfold kills. destruct (has_child _); [| reflexivity].
  destruct (_ !! _) as [[] |]; reflexivity.
Qed.

Lemma kills_completions w :
  omap (fun e => match e with Completed i err => Some (i, err) | _ => None end)
       (kills w) = [].
Proof.
  unfold kills. destruct (has_child _); [| reflexivity].
  destruct (_ !! _) as [[] |]; reflexivity.
Qed.

Lemma kills_debug_output w :
  omap (fun e => match e with Fputs s | Fwrite s => Some s | _ => None end)
       (kills w) = [].
Proof.
  unfold kills. destruct (has_child _); [| reflexivity].
  destruct (_ !! _) as [[] |]; reflexivity.
Qed.

Lemma start_spec args o w :
  inv w ->
  inv (fst (git_reader_start args o w))
  /\ invocation (fst (git_reader_start args o w)) = S (invocation w)
  /\ effects (fst (git_reader_start args o w))
     = effects w ++ kills w ++ [Spawn ("git"%string :: args)]
  /\ child_exit_code (priv (fst (git_reader_start args o w)))
     = child_exit_code (priv w)
  /\ match o with
     | SpawnFailed err =>
         snd (git_reader_start args o w) = (false, Some err)
         /\ idle (fst (git_reader_start args o w))
         /\ error_string (priv (fst (git_reader_start args o w)))
            = error_string (priv w)
     | Spawned pid stdout_fd stderr_fd =>
         snd (git_reader_start args o w) = (true, None)
         /\ error_string (priv (fst (git_reader_start args o w))) = EmptyString
         /\ procs (fst (git_reader_start args o w)) = <[Z.pos pid := Running]> ∅
         /\ exists k,
             running k false false false (fst (git_reader_start args o w))
             /\ id_pid k = pid
     end.
Proof.
  intros Hinv.
  destruct (close_inv w Hinv) as (Hidle & Hi & Hn & He & Hs & Hc).
  destruct Hinv as (Hnext & Hlog & _).
  assert (Hlog' : forall w1,
             effects w1 = effects w ++ kills w ++ [Spawn ("git"%string :: args)] ->
             invocation w1 = S (invocation w) -> log_ok w1).
  { intros w1 Hw1 Hi1 i. unfold completions_of. rewrite Hw1, Hi1.
    rewrite !omap_app, kills_completions_of. cbn. rewrite app_nil_r.
    destruct (Hlog i) as [Hle Hfresh]. split; [exact Hle |].
    intros Hlt. apply Hfresh. lia. }
  assert (Hnone : forall w1,
             effects w1 = effects w ++ kills w ++ [Spawn ("git"%string :: args)] ->
             completions_of (S (invocation w)) w1 = []).
  { intros w1 Hw1. unfold completions_of. rewrite Hw1.
    rewrite !omap_app, kills_completions_of. cbn. rewrite app_nil_r.
    apply (Hlog (S (invocation w))). lia. }
  unfold git_reader_start.
  set (w0 := git_reader_close_process true w) in *. clearbody w0.
  destruct Hidle as [Hhas Hsrc Hprocs Hchan].
  remember (effects w) as ew. remember (kills w) as kw.
  remember (invocation w) as iw. remember (next_source_id w) as nw.
  remember (error_string (priv w)) as sw.
  remember (child_exit_code (priv w)) as cw.
  clear Heqew Heqkw Heqiw Heqnw Heqsw Heqcw Hlog w.
  world_cases; subst.
  destruct nw as [| n | n]; try lia.
  destruct o as [err | pid fo fe]; wsimpl; rewrite ?g_string_truncate_0;
    cbn [Z.add]; rewrite <- ?app_assoc.
  - assert (Hid : idle (mkWorld (mkPriv false child_pid0 child_stdout0 child_stderr0
                           child_watch_source0 child_stdout_source0
                           child_stderr_source0 cw sw)
                          ∅ (Z.pos n) ∅ ∅ (S iw)
                          (ew ++ kw ++ [Spawn ("git"%string :: args)])))
      by (constructor; reflexivity).
    split; [| repeat split; try reflexivity; exact Hid].
    split; [reflexivity |]. split; [apply Hlog'; reflexivity | left; exact Hid].
  - assert (Hrun : running (mkIds (S iw) pid n (n + 1) (n + 1 + 1)) false false false
                     (mkWorld (mkPriv true (Z.pos pid) fo fe (Z.pos n)
                                      (Z.pos (n + 1)) (Z.pos (n + 1 + 1)) cw
                                      EmptyString)
                        (<[Z.pos (n + 1 + 1) := mkWatch WStderr (S iw)]>
                           (<[Z.pos (n + 1) := mkWatch WStdout (S iw)]>
                              (<[Z.pos n := mkWatch (WChild (Z.pos pid)) (S iw)]> ∅)))
                        (Z.pos (n + 1 + 1 + 1))
                        ({[fo]} ∪ ({[fe]} ∪ ∅))
                        (<[Z.pos pid := Running]> ∅) (S iw)
                        (ew ++ kw ++ [Spawn ("git"%string :: args)]))).
    { split; [| reflexivity]. constructor; wsimpl; try reflexivity.
      - repeat split; lia.
      - src_solve.
      - eexists; reflexivity.
      - set_solver.
      - apply Hnone. reflexivity. }
    split; [| repeat split; try reflexivity;
              eexists; split; [exact Hrun | reflexivity]].
    split; [reflexivity |]. split; [apply Hlog'; reflexivity |].
    right. do 4 eexists. exact Hrun.
Qed.

Lemma log_ok_same w w' :
  log_ok w -> completions w' = completions w -> invocation w' = invocation w ->
  log_ok w'.
Proof.
  intros H Hc Hi i. rewrite completions_of_select, Hc, Hi, <- completions_of_select.
  apply H.
Qed.

Lemma log_ok_completed w w' res :
  log_ok w -> completions_of (invocation w) w = [] ->
  completions w' = completions w ++ [(invocation w, res)] ->
  invocation w' = invocation w ->
  log_ok w'.
Proof.
  intros H Hnone Hc Hi i.
  rewrite completions_of_select, Hc, Hi, select_snoc, <- completions_of_select.
  destruct (Nat.eqb_spec i (invocation w)) as [-> | Hne].
  - rewrite Hnone. cbn. split; [lia | intros; lia].
  - rewrite app_nil_r. apply H.
Qed.

(** What a callback does to a world in which an invocation is under
    way. *)
Lemma callback_step w e w' :
  inv w -> step e w = Some w' -> is_callback e = true ->
  inv w'
  /\ has_child (priv w) = true
  /\ invocation w' = invocation w
  /\ (completions w' = completions w
      \/ exists res, completions w' = completions w ++ [(invocation w, res)]
                     /\ idle w').
Proof.
  intros (Hnext & Hlog & [Hidle | (k & ex & oc & ec & Hrun)]) Hstep Hcb.
  - exfalso. destruct Hidle. destruct w as [p src nid ch pr i eff]. cbn in *. subst.
    destruct e as [| | pid | sid st | sid r]; try discriminate; cbn in Hstep.
    all: rewrite ?lookup_empty in Hstep; try destruct (read_fits r); discriminate.
  - assert (Hsim : exists jp, sim k (completions w) (debug_output w)
                       (mkJob ex oc ec (child_exit_code (priv w))
                              (error_string (priv w)) jp [] None) w).
    { destruct Hrun as [Hatt Hpend]. pose proof (at_tag _ _ _ _ _ Hatt) as Htag.
      pose proof (at_procs _ _ _ _ _ Hatt) as Hps.
      destruct ex; [exists Running | destruct Hps as [ps Hps]; exists ps].
      all: unfold sim, running; cbn; rewrite app_nil_r; conjs; auto.
      discriminate. }
    destruct Hsim as [jp Hsim].
    destruct (sim_step _ _ _ _ _ _ _ Hsim Hstep Hcb) as (j' & _ & Hsim' & Hn').
    destruct Hrun as [Hatt Hpend].
    pose proof (at_tag _ _ _ _ _ Hatt) as Htag.
    pose proof (at_none _ _ _ _ _ Hatt) as Hnone. rewrite Htag in Hnone.
    destruct Hsim' as (Hi' & _ & _ & _ & Hst).
    split; [| split; [apply (at_has _ _ _ _ _ Hatt) | split; [congruence |]]].
    + split; [lia |].
      destruct (j_done j') as [res |].
      * destruct Hst as [Hidle' Hc']. rewrite Htag in Hc'.
        split; [| left; exact Hidle'].
        eapply log_ok_completed; eauto. congruence.
      * destruct Hst as (Hrun' & Hc' & _). split; [| right; eauto 6].
        eapply log_ok_same; eauto. congruence.
    + destruct (j_done j') as [res |].
      * destruct Hst as [Hidle' Hc']. rewrite Htag in Hc'. right. eauto.
      * left. apply Hst.
Qed.

Lemma start_completions args o w :
  inv w -> completions (fst (git_reader_start args o w)) = completions w.
Proof.
  intros H. destruct (start_spec args o w H) as (_ & _ & He & _).
  unfold completions. rewrite He, !omap_app, kills_completions. cbn.
  rewrite app_nil_r. reflexivity.
Qed.

Lemma dispose_spec w :
  inv w ->
  inv (git_reader_dispose w)
  /\ idle (git_reader_dispose w)
  /\ invocation (git_reader_dispose w) = invocation w
  /\ completions (git_reader_dispose w) = completions w.
Proof.
  intros H. destruct (close_inv w H) as (Hidle & Hi & Hn & He & _).
  destruct H as (Hnext & Hlog & _). unfold git_reader_dispose.
  assert (Hc : completions (git_reader_close_process true w) = completions w).
  { unfold completions. rewrite He, omap_app, kills_completions, app_nil_r.
    reflexivity. }
  unfold inv. rewrite Hn. conjs; try assumption.
  - eapply log_ok_same; eauto.
  - left. exact Hidle.
Qed.

Lemma inv_step e w w' : inv w -> step e w = Some w' -> inv w'.
Proof.
  intros H Hstep. destruct (is_callback e) eqn:Hcb.
  - eapply callback_step; eauto.
  - destruct e; try discriminate; cbn in Hstep; injection Hstep as <-.
    + apply start_spec, H.
    + apply dispose_spec, H.
Qed.

Lemma inv_run tr : forall w w', inv w -> run tr w = Some w' -> inv w'.
Proof.
  induction tr as [| e tr IH]; intros w w' H Hrun; cbn in Hrun.
  - congruence.
  - destruct (step e w) as [w1 |] eqn:Hstep; [| discriminate].
    eapply IH; [| exact Hrun]. eapply inv_step; eauto.
Qed.

Lemma reachable_inv w : reachable w -> inv w.
Proof. intros [tr Htr]. eapply inv_run; [apply inv_new | exact Htr]. Qed.

(** ** The join machine on a trace *)

Lemma str_app_nil_r s : s +:+ EmptyString = s.
Proof.
  induction s as [| c s IH]; [reflexivity |].
  change (String c (s +:+ EmptyString) = String c s). rewrite IH. reflexivity.
Qed.

Lemma str_app_assoc a b c : (a +:+ b) +:+ c = a +:+ (b +:+ c).
Proof.
  induction a as [| x a IH]; [reflexivity |].
  change (String x ((a +:+ b) +:+ c) = String x (a +:+ (b +:+ c))).
  rewrite IH. reflexivity.
Qed.

Lemma job_run_done pid cw out err tr j j' r :
  j_done j = Some r -> job_run pid cw out err tr j = Some j' -> tr = [] /\ j' = j.
Proof.
  intros Hd Hrun. destruct tr as [| e tr]; cbn in Hrun.
  - split; congruence.
  - unfold job_step in Hrun. rewrite Hd in Hrun. discriminate.
Qed.

Ltac spec_unfold :=
  unfold job_spec, exit_seen, eof_seen, read_failed, frames, concat_bytes in *;
  cbn [exit_status existsb is_eof is_read_error chunks flat_map fold_right
       j_done j_ex j_oc j_ec j_code j_buf j_proc j_printed orb andb default] in *.

Ltac spec_close H :=
  let Hpr := fresh "Hpr" in
  destruct H as [Hpr H];
  rewrite <- ?app_assoc, ?str_app_assoc in *;
  split; [exact Hpr |];
  destruct (existsb is_read_error _); [exact H |];
  destruct H as (? & ? & ? & ? & ?);
  conjs; try assumption; try (cbn; assumption).

Ltac spec_finished Hrun r0 :=
  apply job_run_done with (r := r0) in Hrun; [| reflexivity];
  destruct Hrun as [-> ->]; spec_unfold;
  rewrite ?app_nil_r, ?str_app_nil_r, ?orb_false_r, ?orb_true_r;
  conjs; eauto.

Section JobTrace.

Variables pid cw out err : Z.
Hypothesis out_err : out <> err.

Lemma job_step_exited e j j1 :
  job_step pid cw out err e j = Some j1 -> j_ex j = true ->
  j_ex j1 = true /\ j_code j1 = j_code j.
Proof.
  unfold job_step, job_finish, job_fail. intros H Hex.
  destruct j as [ex oc ec code buf jp pr d]; cbn in *; subst ex.
  destruct d; [discriminate |].
  destruct e as [| | p | sid st | sid r]; try discriminate.
  - rewrite andb_false_r in H. discriminate.
  - rewrite andb_false_r in H. discriminate.
  - destruct (negb (read_fits r)); [discriminate |].
    destruct ((sid =? out) && negb oc), ((sid =? err) && negb ec), r, oc, ec;
      cbn in H; try discriminate; injection H as <-; split; reflexivity.
Qed.

Lemma job_code_stable tr :
  forall j j', job_run pid cw out err tr j = Some j' -> j_ex j = true ->
               j_code j' = j_code j.
Proof.
  induction tr as [| e tr IH]; intros j j' Hrun Hex; cbn in Hrun.
  - congruence.
  - destruct (job_step pid cw out err e j) as [j1 |] eqn:Hstep; [| discriminate].
    destruct (job_step_exited _ _ _ Hstep Hex) as [Hex1 Hc1].
    rewrite (IH _ _ Hrun Hex1). exact Hc1.
Qed.

Lemma job_run_spec tr :
  forall j j', pending j -> job_run pid cw out err tr j = Some j' ->
               job_spec cw out err tr j j'.
Proof.
  induction tr as [| e tr IH]; intros j j' [Hd Hp] Hrun; cbn in Hrun.
  - injection Hrun as <-. unfold job_spec; cbn.
    rewrite app_nil_r, !orb_false_r, Hp, str_app_nil_r. conjs; auto.
  - destruct (job_step pid cw out err e j) as [j1 |] eqn:Hstep; [| discriminate].
    unfold job_step in Hstep. rewrite Hd in Hstep.
    destruct j as [ex oc ec code buf jp pr d]; cbn in *; subst d.
    destruct e as [| | p | sid st | sid r].
    1,2: discriminate.
    + destruct ((p =? pid) && negb ex && is_running jp); [| discriminate].
      injection Hstep as <-.
      apply IH in Hrun; [| split; [reflexivity | exact Hp]].
      spec_unfold. exact Hrun.
    + destruct (sid =? cw) eqn:Hcw; [| discriminate].
      destruct ex; [discriminate |]. cbn in Hstep.
      destruct (negb (is_running jp)); [| discriminate].
      injection Hstep as <-.
      unfold job_finish in Hrun; cbn in Hrun.
      destruct oc, ec; cbn in Hrun.
      1: { spec_unfold. rewrite Hcw.
           spec_finished Hrun (snd (exit_error st buf)). }
      all: pose proof (job_code_stable _ _ _ Hrun eq_refl) as Hcode.
      all: apply IH in Hrun; [| split; reflexivity].
      all: spec_unfold; rewrite Hcw; spec_close Hrun.
    + destruct (read_fits r); [| discriminate]. cbn in Hstep.
      destruct (sid =? out) eqn:Hout.
      * assert (Herr : (sid =? err) = false).
        { apply Z.eqb_eq in Hout. apply Z.eqb_neq. congruence. }
        destruct oc; cbn in Hstep; rewrite ?Herr in Hstep; [discriminate |].
        spec_unfold.
        destruct r as [e | b | |]; injection Hstep as <-;
          spec_unfold; rewrite ?Hout, ?Herr; spec_unfold.
        -- spec_finished Hrun (Some e).
        -- apply IH in Hrun; [| split; [reflexivity | exact Hp]].
           spec_unfold. spec_close Hrun.
        -- unfold job_finish in Hrun; cbn in Hrun. destruct ex, ec; cbn in Hrun.
           1: spec_finished Hrun (snd (exit_error code buf)).
           all: apply IH in Hrun; [| split; reflexivity].
           all: spec_unfold; spec_close Hrun.
        -- apply IH in Hrun; [| split; [reflexivity | exact Hp]].
           spec_unfold. spec_close Hrun.
      * cbn in Hstep. destruct (sid =? err) eqn:Herr; [| discriminate].
        destruct ec; cbn in Hstep; [discriminate |].
        spec_unfold.
        destruct r as [e | b | |]; injection Hstep as <-;
          spec_unfold; rewrite ?Hout, ?Herr; spec_unfold.
        -- spec_finished Hrun (Some e).
        -- apply IH in Hrun; [| split; [reflexivity | exact Hp]].
           spec_unfold. spec_close Hrun.
        -- unfold job_finish in Hrun; cbn in Hrun. destruct ex, oc; cbn in Hrun.
           1: spec_finished Hrun (snd (exit_error code buf)).
           all: apply IH in Hrun; [| split; reflexivity].
           all: spec_unfold; spec_close Hrun.
        -- apply IH in Hrun; [| split; [reflexivity | exact Hp]].
           spec_unfold. spec_close Hrun.
Qed.

End JobTrace.

(** ** The reader refines the join *)

Lemma expected_cw k oc ec :
  expected_source k false oc ec (Z.pos (id_cw k))
  = Some (mkWatch (WChild (Z.pos (id_pid k))) (id_tag k)).
Proof. unfold expected_source. rewrite bool_decide_eq_true_2; reflexivity. Qed.

Lemma expected_out k ex ec :
  id_cw k <> id_out k ->
  expected_source k ex false ec (Z.pos (id_out k)) = Some (mkWatch WStdout (id_tag k)).
Proof.
  intros H. unfold expected_source.
  rewrite bool_decide_eq_false_2 by congruence.
  rewrite bool_decide_eq_true_2; reflexivity.
Qed.

Lemma expected_err k ex oc :
  id_cw k <> id_err k -> id_out k <> id_err k ->
  expected_source k ex oc false (Z.pos (id_err k)) = Some (mkWatch WStderr (id_tag k)).
Proof.
  intros H1 H2. unfold expected_source.
  rewrite !bool_decide_eq_false_2 by congruence.
  rewrite bool_decide_eq_true_2; reflexivity.
Qed.

(** Every event the join allows can happen in the world that runs it. *)
Lemma sim_enabled k c0 p0 j w e j1 :
  sim k c0 p0 j w ->
  job_step (Z.pos (id_pid k)) (Z.pos (id_cw k)) (Z.pos (id_out k)) (Z.pos (id_err k))
           e j = Some j1 ->
  exists w1, step e w = Some w1.
Proof.
  intros (Hinv & Hpr & Hcode & Hbuf & Hst) Hjob.
  unfold job_step in Hjob.
  destruct j as [ex oc ec code buf jp pr [res |]]; cbn in *; [discriminate |].
  destruct Hst as ([[] Hpend] & Hc & Hjp). destruct at_ids0 as (Hn1 & Hn2 & Hn3).
  destruct e as [| | p | sid st | sid r]; try discriminate; unfold step.
  - destruct (p =? Z.pos (id_pid k)) eqn:Hp; [| discriminate].
    destruct ex; [discriminate |]. destruct jp; [| discriminate].
    apply Z.eqb_eq in Hp. subst p.
    rewrite (Hjp eq_refl), lookup_insert_eq. eauto.
  - destruct (sid =? Z.pos (id_cw k)) eqn:Hs; [| discriminate].
    destruct ex; [discriminate |]. destruct jp; [discriminate |].
    apply Z.eqb_eq in Hs. subst sid.
    rewrite at_src0, expected_cw, (Hjp eq_refl), lookup_insert_eq. eauto.
  - destruct (read_fits r); [| discriminate]. cbn in Hjob.
    destruct (sid =? Z.pos (id_out k)) eqn:Hs.
    + destruct oc.
      * cbn in Hjob. apply Z.eqb_eq in Hs. subst sid.
        rewrite pos_eqb_neq in Hjob by assumption. discriminate.
      * apply Z.eqb_eq in Hs. subst sid. rewrite at_src0, expected_out by assumption.
        destruct (git_reader_on_child_stdout _ _ _). eauto.
    + cbn in Hjob. destruct (sid =? Z.pos (id_err k)) eqn:Hs'; [| discriminate].
      destruct ec; [discriminate |].
      apply Z.eqb_eq in Hs'. subst sid. rewrite at_src0, expected_err by assumption.
      destruct (git_reader_on_child_stderr _ _ _). eauto.
Qed.

Lemma sim_run k c0 p0 tr :
  forall j w w',
    sim k c0 p0 j w -> callbacks tr -> run tr w = Some w' ->
    exists j', job_run (Z.pos (id_pid k)) (Z.pos (id_cw k)) (Z.pos (id_out k))
                       (Z.pos (id_err k)) tr j = Some j'
               /\ sim k c0 p0 j' w'.
Proof.
  induction tr as [| e tr IH]; intros j w w' Hsim Hcb Hrun; cbn in *.
  - injection Hrun as <-. eauto.
  - apply andb_prop in Hcb. destruct Hcb as [He Htr].
    destruct (step e w) as [w1 |] eqn:Hstep; [| discriminate].
    destruct (sim_step _ _ _ _ _ _ _ Hsim Hstep He) as (j1 & Hj1 & Hsim1 & _).
    rewrite Hj1. eapply IH; eauto.
Qed.

Lemma job_step_callback pid cw out err e j j1 :
  job_step pid cw out err e j = Some j1 -> is_callback e = true.
Proof.
  unfold job_step. destruct (j_done j); [discriminate |].
  destruct e; (discriminate || reflexivity).
Qed.

Lemma sim_run_enabled k c0 p0 tr :
  forall j w j',
    sim k c0 p0 j w ->
    job_run (Z.pos (id_pid k)) (Z.pos (id_cw k)) (Z.pos (id_out k)) (Z.pos (id_err k))
            tr j = Some j' ->
    exists w', run tr w = Some w' /\ sim k c0 p0 j' w'.
Proof.
  induction tr as [| e tr IH]; intros j w j' Hsim Hjob; cbn in *.
  - injection Hjob as <-. eauto.
  - destruct (job_step _ _ _ _ e j) as [j1 |] eqn:Hj1; [| discriminate].
    destruct (sim_enabled _ _ _ _ _ _ _ Hsim Hj1) as [w1 Hstep].
    pose proof (job_step_callback _ _ _ _ _ _ _ Hj1) as He.
    destruct (sim_step _ _ _ _ _ _ _ Hsim Hstep He) as (j1' & Hj1' & Hsim1 & _).
    rewrite Hstep. eapply IH; [| exact Hjob]. congruence.
Qed.

(** ** An invocation, from its start *)

Lemma started_sim args pid fo fe w :
  inv w ->
  let w1 := fst (git_reader_start args (Spawned pid fo fe) w) in
  exists k,
    sim k (completions w1) (debug_output w1) (start_job w1) w1
    /\ id_tag k = invocation w1
    /\ Z.pos (id_pid k) = child_pid (priv w1)
    /\ Z.pos (id_cw k) = child_watch_source (priv w1)
    /\ Z.pos (id_out k) = child_stdout_source (priv w1)
    /\ Z.pos (id_err k) = child_stderr_source (priv w1)
    /\ id_out k <> id_err k
    /\ completions_of (invocation w1) w1 = [].
Proof.
  intros Hinv w1.
  destruct (start_spec args (Spawned pid fo fe) w Hinv)
    as (_ & _ & _ & _ & _ & Hs & Hp & k & Hrun & Hk).
  fold w1 in Hs, Hp, Hrun. clearbody w1. exists k.
  pose proof Hrun as [Hatt _]. destruct Hatt.
  destruct at_ids0 as (_ & _ & Hoe).
  unfold sim, start_job; cbn. rewrite app_nil_r, Hk.
  conjs; auto; congruence.
Qed.

(** What a trace of callbacks makes of a fresh invocation. *)
Lemma started_run args pid fo fe w tr w' :
  inv w ->
  let w1 := fst (git_reader_start args (Spawned pid fo fe) w) in
  callbacks tr -> run tr w1 = Some w' ->
  exists j',
    job_run (child_pid (priv w1)) (child_watch_source (priv w1))
            (child_stdout_source (priv w1)) (child_stderr_source (priv w1))
            tr (start_job w1) = Some j'
    /\ job_spec (child_watch_source (priv w1)) (child_stdout_source (priv w1))
                (child_stderr_source (priv w1)) tr (start_job w1) j'
    /\ debug_output w' = debug_output w1 ++ j_printed j'
    /\ completions_of (invocation w1) w'
       = match j_done j' with Some res => [res] | None => [] end
    /\ match j_done j' with
       | Some _ => idle w'
       | None => has_child (priv w') = true
                 /\ error_string (priv w') = j_buf j'
                 /\ child_exit_code (priv w') = j_code j'
       end.
Proof.
  intros Hinv w1 Hcb Hrun.
  destruct (started_sim args pid fo fe w Hinv)
    as (k & Hsim & Htag & Hpid & Hcw & Hout & Herr & Hoe & Hnone).
  fold w1 in Hsim, Htag, Hpid, Hcw, Hout, Herr, Hnone. clearbody w1.
  destruct (sim_run _ _ _ _ _ _ _ Hsim Hcb Hrun) as (j' & Hjob & Hsim').
  rewrite Hpid, Hcw, Hout, Herr in Hjob.
  exists j'. split; [exact Hjob |]. split.
  { eapply job_run_spec; [| split; reflexivity | exact Hjob]. congruence. }
  destruct Hsim' as (Hi & Hpr & Hcode & Hbuf & Hst).
  split; [exact Hpr |].
  rewrite completions_of_select.
  destruct (j_done j') as [res |].
  - destruct Hst as [Hidle Hc]. split; [| exact Hidle].
    rewrite Hc, select_snoc, <- completions_of_select, Hnone, <- Htag, Nat.eqb_refl.
    reflexivity.
  - destruct Hst as ([Hatt _] & Hc & _). split.
    + rewrite Hc, <- completions_of_select. exact Hnone.
    + conjs; auto. apply (at_has _ _ _ _ _ Hatt).
Qed.

Lemma job_spec_joined cw out err tr j j' :
  job_spec cw out err tr j j' ->
  read_failed tr = false ->
  j_ex j || exit_seen cw tr = true ->
  j_oc j || eof_seen out tr = true ->
  j_ec j || eof_seen err tr = true ->
  j_done j'
  = Some (join_result (default (j_code j) (exit_status cw tr))
                      (j_buf j +:+ concat_bytes (chunks err tr))).
Proof.
  intros [_ H] Hrf Hex Hoc Hec. rewrite Hrf in H.
  destruct H as (Hex' & Hoc' & Hec' & Hcode & Hdone).
  rewrite Hex', Hoc', Hec', Hex, Hoc, Hec, Hcode in Hdone. exact Hdone.
Qed.

Lemma joined_completion args pid fo fe w tr w' :
  inv w ->
  let w1 := started args pid fo fe w in
  callbacks tr -> run tr w1 = Some w' ->
  read_failed tr = false -> all_signals w1 tr = true ->
  exists st, exit_status (child_watch_source (priv w1)) tr = Some st
             /\ completions_of (invocation w1) w'
                = [join_result st (stderr_bytes w1 tr)].
Proof.
  intros Hinv w1 Hcb Hrun Hrf Hall.
  destruct (started_run args pid fo fe w tr w' Hinv Hcb Hrun)
    as (j' & _ & Hspec & _ & Hcompl & _).
  fold (started args pid fo fe w) in Hspec, Hcompl. fold w1 in Hspec, Hcompl.
  clearbody w1. unfold all_signals in Hall.
  apply andb_prop in Hall. destruct Hall as [Hall Hec].
  apply andb_prop in Hall. destruct Hall as [Hex Hoc].
  rewrite (job_spec_joined _ _ _ _ _ _ Hspec Hrf) in Hcompl by (cbn; assumption).
  unfold exit_seen in Hex.
  destruct (exit_status (child_watch_source (priv w1)) tr) as [st |];
    [| discriminate].
  exists st. split; [reflexivity |]. exact Hcompl.
Qed.

Lemma insert_singleton_inj (pid : Z) (a b : ProcState) :
  <[pid := a]> (∅ : gmap Z ProcState) = <[pid := b]> ∅ -> a = b.
Proof.
  intros H. assert (Hl : (<[pid := a]> (∅ : gmap Z ProcState)) !! pid = Some b)
    by (rewrite H; apply lookup_insert_eq).
  rewrite lookup_insert_eq in Hl. congruence.
Qed.

(** ** Trimming, by the text and its trailing white space *)

Lemma str_length_app a b :
  String.length (a +:+ b) = (String.length a + String.length b)%nat.
Proof.
  induction a as [| c a IH]; [reflexivity |].
  change (S (String.length (a +:+ b)) = S (String.length a + String.length b)).
  rewrite IH. reflexivity.
Qed.

Lemma char_at_app_l a b i :
  (i < String.length a)%nat -> char_at (a +:+ b) i = char_at a i.
Proof.
  intros H. unfold char_at. rewrite <- (append_correct1 a b i H). reflexivity.
Qed.

Lemma char_at_app_r a b i :
  char_at (a +:+ b) (i + String.length a) = char_at b i.
Proof. unfold char_at. rewrite <- (append_correct2 a b i). reflexivity. Qed.

Lemma all_space_char s i :
  all_space s = true -> (i < String.length s)%nat -> isspace (char_at s i) = true.
Proof.
  revert i. induction s as [| c s IH]; intros i Hs Hi; cbn in *; [lia |].
  apply andb_prop in Hs. destruct Hs as [Hc Hs].
  destruct i as [| i]; [exact Hc |]. apply IH; [exact Hs | lia].
Qed.

(** The scan stops at [n] when everything above [n] is white space and
    [n] is [0] or holds none. *)
Lemma trim_scan_stops s n m :
  (forall i, (n < i <= n + m)%nat -> isspace (char_at s i) = true) ->
  (n = 0%nat \/ isspace (char_at s n) = false) ->
  trim_scan s (n + m) = n.
Proof.
  intros Hws Hn. induction m as [| m IH].
  - rewrite Nat.add_0_r. destruct n as [| n]; [reflexivity |].
    destruct Hn as [Hn | Hn]; [discriminate |]. cbn [trim_scan]. rewrite Hn. reflexivity.
  - rewrite Nat.add_succ_r. cbn [trim_scan]. rewrite (Hws (S (n + m))) by lia.
    apply IH. intros i Hi. apply Hws. lia.
Qed.

Lemma trim_scan_le s n : (trim_scan s n <= n)%nat.
Proof.
  induction n as [| n IH]; [reflexivity |]. cbn [trim_scan].
  destruct (isspace _); lia.
Qed.

Lemma str_take_app a b n :
  (n <= String.length a)%nat -> str_take n (a +:+ b) = str_take n a.
Proof.
  revert n. induction a as [| c a IH]; intros n Hn; cbn in Hn.
  - replace n with 0%nat by lia. destruct b; reflexivity.
  - destruct n as [| n]; [reflexivity |].
    change (String c (str_take n (a +:+ b)) = String c (str_take n a)).
    rewrite IH by lia. reflexivity.
Qed.

Lemma str_take_last_cons s :
  forall c,
    String c s
    = str_take (String.length s) (String c s)
      +:+ String (char_at (String c s) (String.length s)) EmptyString.
Proof.
  induction s as [| d s IH]; intros c; [reflexivity |].
  change (String c (String d s)
          = String c (str_take (String.length s) (String d s)
                      +:+ String (char_at (String d s) (String.length s)) EmptyString)).
  rewrite <- IH. reflexivity.
Qed.

Lemma str_take_last s :
  s <> EmptyString ->
  s = str_take (String.length s - 1) s +:+ String (last_char s) EmptyString.
Proof.
  intros Hne. destruct s as [| c s]; [congruence |].
  unfold last_char. cbn [String.length]. rewrite Nat.sub_succ, Nat.sub_0_r.
  apply str_take_last_cons.
Qed.

(** A buffer of white space only trims to nothing. *)
Lemma trim_len_all_space s : all_space s = true -> trim_len s <= 0.
Proof.
  intros Hs. unfold trim_len.
  set (len := to_gssize (to_gsize (Z.of_nat (String.length s)) - 1)).
  destruct (0 <? len) eqn:Hpos; [| apply Z.ltb_ge in Hpos; exact Hpos].
  apply Z.ltb_lt in Hpos.
  assert (Hle : len <= Z.of_nat (String.length s) - 1).
  { subst len. unfold to_gssize, to_gsize in *.
    pose proof (Z.mod_pos_bound (Z.of_nat (String.length s)) (2 ^ 64) ltac:(lia)) as Hb.
    pose proof (Z.mod_le (Z.of_nat (String.length s)) (2 ^ 64) ltac:(lia) ltac:(lia)) as Hm.
    destruct (Z.eq_dec (Z.of_nat (String.length s) mod 2 ^ 64) 0) as [H0 | H0].
    - rewrite H0 in Hpos. change ((0 - 1) mod 2 ^ 64) with (2 ^ 64 - 1) in Hpos.
      vm_compute in Hpos. discriminate.
    - rewrite (Z.mod_small (_ - 1)) in * by lia.
      destruct (_ <? _); lia. }
  replace (Z.to_nat len) with (0 + Z.to_nat len)%nat by lia.
  rewrite trim_scan_stops; [lia | | left; reflexivity].
  intros i Hi. apply all_space_char; [exact Hs | lia].
Qed.

(** A buffer made of a text that ends in a visible byte, and of trailing
    white space: the scan stops on the last byte of the text, which the
    truncation then drops. *)
Lemma trim_len_text text ws :
  text <> EmptyString -> isspace (last_char text) = false -> all_space ws = true ->
  Z.of_nat (String.length (text +:+ ws)) < 2 ^ 63 ->
  trim_len (text +:+ ws) = Z.of_nat (String.length text) - 1
  /\ g_string_truncate (text +:+ ws) (trim_len (text +:+ ws))
     = str_take (String.length text - 1) text.
Proof.
  intros Hne Hlast Hws Hfit.
  assert (Hlen : (1 <= String.length text)%nat) by (destruct text; cbn; [congruence | lia]).
  assert (Htrim : trim_len (text +:+ ws) = Z.of_nat (String.length text) - 1).
  { unfold trim_len, to_gssize, to_gsize. rewrite str_length_app in *.
    rewrite (Z.mod_small (Z.of_nat _)) by lia.
    rewrite (Z.mod_small (_ - 1)) by lia.
    replace (_ <? 2 ^ 63) with true by (symmetry; apply Z.ltb_lt; lia).
    destruct (0 <? _) eqn:Hpos.
    - replace (Z.to_nat (Z.of_nat (String.length text + String.length ws) - 1))
        with ((String.length text - 1) + String.length ws)%nat by lia.
      rewrite trim_scan_stops; [lia | |].
      + intros i Hi.
        replace i with ((i - String.length text) + String.length text)%nat by lia.
        rewrite char_at_app_r. apply all_space_char; [exact Hws | lia].
      + right. rewrite char_at_app_l by lia. exact Hlast.
    - apply Z.ltb_ge in Hpos. lia. }
  split; [exact Htrim |].
  rewrite Htrim. unfold g_string_truncate, to_gsize.
  rewrite Z.mod_small by (rewrite str_length_app in Hfit; lia).
  rewrite str_length_app, Z.min_l by lia.
  replace (Z.to_nat (Z.of_nat (String.length text) - 1))
    with (String.length text - 1)%nat by lia.
  apply str_take_app. lia.
Qed.

Lemma join_result_zero diagnostic : join_result 0 diagnostic = None.
Proof. reflexivity. Qed.

Lemma join_result_all_space st diagnostic :
  st <> 0 -> all_space diagnostic = true ->
  join_result st diagnostic
  = Some (mkGError GIT_ERROR GIT_ERROR_EXIT_STATUS generic_message).
Proof.
  intros Hst Hws. unfold join_result, exit_error.
  rewrite (proj2 (Z.eqb_neq st 0) Hst).
  pose proof (trim_len_all_space diagnostic Hws) as Hle.
  replace (0 <? trim_len diagnostic) with false
    by (symmetry; apply Z.ltb_ge; exact Hle).
  reflexivity.
Qed.

Lemma join_result_text st text ws :
  st <> 0 -> (2 <= String.length text)%nat ->
  isspace (last_char text) = false -> all_space ws = true ->
  Z.of_nat (String.length (text +:+ ws)) < 2 ^ 63 ->
  join_result st (text +:+ ws)
  = Some (mkGError GIT_ERROR GIT_ERROR_EXIT_STATUS
                   (message_prefix
                    +:+ c_str (str_take (String.length text - 1) text))).
Proof.
  intros Hst Hlen Hlast Hws Hfit.
  assert (Hne : text <> EmptyString) by (destruct text; cbn in Hlen; [lia | discriminate]).
  destruct (trim_len_text text ws Hne Hlast Hws Hfit) as [Htrim Htrunc].
  unfold join_result, exit_error.
  rewrite (proj2 (Z.eqb_neq st 0) Hst), Htrunc, Htrim.
  replace (0 <? Z.of_nat (String.length text) - 1) with true
    by (symmetry; apply Z.ltb_lt; lia).
  reflexivity.
Qed.

(** ** Discarded invocations *)

Lemma discarded_step i e w w' :
  inv w -> discarded i w -> step e w = Some w' ->
  discarded i w' /\ completions_of i w' = completions_of i w.
Proof.
  intros Hinv Hd Hstep. destruct (is_callback e) eqn:Hcb.
  - destruct (callback_step w e w' Hinv Hstep Hcb) as (_ & Hhas & Hi & Hc).
    destruct Hd as [Hlt | [_ Hno]]; [| congruence].
    split; [left; lia |].
    rewrite !completions_of_select.
    destruct Hc as [-> | (res & -> & _)]; [reflexivity |].
    rewrite select_snoc.
    replace (Nat.eqb i (invocation w)) with false
      by (symmetry; apply Nat.eqb_neq; lia).
    apply app_nil_r.
  - destruct e; try discriminate; cbn in Hstep; injection Hstep as <-.
    + destruct (start_spec args o w Hinv) as (_ & Hi & _).
      split; [left; destruct Hd as [? | [? _]]; lia |].
      rewrite !completions_of_select, start_completions by exact Hinv. reflexivity.
    + destruct (dispose_spec w Hinv) as (_ & Hidle & Hi & Hc).
      split.
      * destruct Hd as [? | [? _]]; [left; lia | right].
        split; [lia | apply Hidle].
      * rewrite !completions_of_select, Hc. reflexivity.
Qed.

Lemma discarded_run i tr :
  forall w w', inv w -> discarded i w -> run tr w = Some w' ->
               completions_of i w' = completions_of i w.
Proof.
  induction tr as [| e tr IH]; intros w w' Hinv Hd Hrun; cbn in Hrun.
  - congruence.
  - destruct (step e w) as [w1 |] eqn:Hstep; [| discriminate].
    destruct (discarded_step i e w w1 Hinv Hd Hstep) as [Hd1 Hc1].
    rewrite <- Hc1. eapply IH; [| exact Hd1 | exact Hrun].
    eapply inv_step; eauto.
Qed.

(** The reader never owns two children. *)
Lemma inv_one_child w : inv w -> (size (procs w) <= 1)%nat.
Proof.
  intros (_ & _ & [Hidle | (k & ex & oc & ec & [Hatt _])]).
  - destruct Hidle as [_ _ Hp _]. rewrite Hp, map_size_empty. lia.
  - pose proof (at_procs _ _ _ _ _ Hatt) as Hp. destruct ex.
    + rewrite Hp, map_size_empty. lia.
    + destruct Hp as [ps ->]. rewrite map_size_insert_None by apply lookup_empty.
      rewrite map_size_empty. lia.
Qed.

(** An invocation under way is the latest one and has not completed. *)
Lemma inv_has_child w :
  inv w -> has_child (priv w) = true -> completions_of (invocation w) w = [].
Proof.
  intros (_ & _ & [Hidle | (k & ex & oc & ec & [Hatt _])]) Hhas.
  - destruct Hidle. congruence.
  - rewrite <- (at_tag _ _ _ _ _ Hatt). apply (at_none _ _ _ _ _ Hatt).
Qed.

Lemma kills_running w :
  has_child (priv w) = true ->
  procs w !! child_pid (priv w) = Some Running ->
  kills w = [Sigterm (child_pid (priv w))].
Proof. intros Hhas Hp. unfold kills. rewrite Hhas, Hp. reflexivity. Qed.

Lemma attached_has_child w sid wt : inv w -> sources w !! sid = Some wt ->
  has_child (priv w) = true /\ w_tag wt = invocation w.
Proof.
  intros (_ & _ & [Hidle | (k & ex & oc & ec & [Hatt _])]) Hsrc.
  - destruct Hidle as [_ Hs _ _]. rewrite Hs, lookup_empty in Hsrc. discriminate.
  - split; [apply (at_has _ _ _ _ _ Hatt) |].
    rewrite (at_src _ _ _ _ _ Hatt) in Hsrc. rewrite <- (at_tag _ _ _ _ _ Hatt).
    unfold expected_source in Hsrc.
    repeat case_bool_decide; destruct ex, oc, ec; try discriminate;
      injection Hsrc as <-; reflexivity.
Qed.

(** * The claims *)

(** C1.  After a successful start, whatever callbacks the main loop runs,
    [completed] was emitted for this invocation exactly once if all three
    completion signals were recorded or a read failed hard, and not at all
    otherwise; and whatever happens afterwards (further callbacks, calls of
    start or dispose) it is never emitted a second time for it. *)
Theorem completed_exactly_once args pid fo fe w tr w' :
  reachable w ->
  let w1 := started args pid fo fe w in
  callbacks tr -> run tr w1 = Some w' ->
  length (completions_of (invocation w1) w')
  = (if read_failed tr || all_signals w1 tr then 1 else 0)%nat
  /\ forall tr2 w2,
      run tr2 w' = Some w2 ->
      (length (completions_of (invocation w1) w2) <= 1)%nat.
Proof.
  intros Hreach w1 Hcb Hrun.
  pose proof (reachable_inv w Hreach) as Hinv.
  destruct (started_run args pid fo fe w tr w' Hinv Hcb Hrun)
    as (j' & _ & (_ & Hspec) & _ & Hcompl & _).
  fold (started args pid fo fe w) in Hspec, Hcompl. fold w1 in Hspec, Hcompl.
  split.
  - clearbody w1. rewrite Hcompl. unfold all_signals.
    destruct (read_failed tr).
    + destruct Hspec as [e ->]. reflexivity.
    + destruct Hspec as (Hex & Hoc & Hec & _ & Hdone). cbn in Hex, Hoc, Hec.
      rewrite <- Hex, <- Hoc, <- Hec. cbn.
      destruct (j_ex j' && j_oc j' && j_ec j').
      * rewrite Hdone. reflexivity.
      * destruct Hdone as [-> _]. reflexivity.
  - intros tr2 w2 Hrun2.
    assert (Hinv2 : inv w2).
    { eapply inv_run; [| exact Hrun2]. eapply inv_run; [| exact Hrun].
      apply start_spec, Hinv. }
    destruct Hinv2 as (_ & Hlog & _). apply Hlog.
Qed.

Lemma completed_exactly_once_witness :
  exists w',
    run [EvChildDies 7; EvIO 2 IoEof; EvChildWatch 1 0; EvIO 3 IoEof]
        (started ["blame"%string] 7 5 6 git_reader_new) = Some w'
    /\ length (completions_of 1 w') = 1%nat.
Proof.
  eexists. split; [vm_compute; reflexivity |].
  refine (proj1 (completed_exactly_once ["blame"%string] 7 5 6 git_reader_new
                   [EvChildDies 7; EvIO 2 IoEof; EvChildWatch 1 0; EvIO 3 IoEof] _
                   (ex_intro _ [] eq_refl) eq_refl _)).
  vm_compute. reflexivity.
Defined.

(** C2.  With the same exit status and the same diagnostic bytes, every
    interleaving of callbacks that completes the join delivers the same
    result; in particular, once the child has terminated, each of the six
    orders of the three completion signals can occur, and each ends in
    one completion carrying the result for the exit status and the bytes
    accumulated so far. *)
Theorem join_order_independent args pid fo fe w :
  reachable w ->
  let w1 := started args pid fo fe w in
  (forall tr1 tr2 w1' w2',
      callbacks tr1 -> callbacks tr2 ->
      run tr1 w1 = Some w1' -> run tr2 w1 = Some w2' ->
      read_failed tr1 = false -> read_failed tr2 = false ->
      all_signals w1 tr1 = true -> all_signals w1 tr2 = true ->
      exit_status (child_watch_source (priv w1)) tr1
      = exit_status (child_watch_source (priv w1)) tr2 ->
      stderr_bytes w1 tr1 = stderr_bytes w1 tr2 ->
      completions_of (invocation w1) w1' = completions_of (invocation w1) w2')
  /\ (forall pre wp st sigs,
        callbacks pre -> run pre w1 = Some wp ->
        read_failed pre = false ->
        exit_seen (child_watch_source (priv w1)) pre = false ->
        eof_seen (child_stdout_source (priv w1)) pre = false ->
        eof_seen (child_stderr_source (priv w1)) pre = false ->
        procs wp !! child_pid (priv w1) = Some Zombie ->
        Permutation (signals w1 st) sigs ->
        exists w',
          run sigs wp = Some w'
          /\ completions_of (invocation w1) w'
             = [join_result st (stderr_bytes w1 pre)]).
Proof.
  intros Hreach w1. pose proof (reachable_inv w Hreach) as Hinv. split.
  - intros tr1 tr2 w1' w2' Hcb1 Hcb2 Hrun1 Hrun2 Hrf1 Hrf2 Hall1 Hall2 Hst Hbytes.
    destruct (joined_completion args pid fo fe w tr1 w1' Hinv Hcb1 Hrun1 Hrf1 Hall1)
      as (st1 & Hst1 & Hc1).
    destruct (joined_completion args pid fo fe w tr2 w2' Hinv Hcb2 Hrun2 Hrf2 Hall2)
      as (st2 & Hst2 & Hc2).
    fold w1 in Hst1, Hst2, Hc1, Hc2. rewrite Hc1, Hc2, Hbytes. congruence.
  - intros pre wp st sigs Hcb Hrun Hrf Hex Hoc Hec Hz Hperm.
    destruct (started_sim args pid fo fe w Hinv)
      as (k & Hsim & Htag & Hpid & Hcw & Hout & Herr & Hoe & Hnone).
    fold (started args pid fo fe w) in Hsim, Htag, Hpid, Hcw, Hout, Herr, Hnone.
    fold w1 in Hsim, Htag, Hpid, Hcw, Hout, Herr, Hnone.
    unfold signals, stderr_bytes in *. clearbody w1.
    destruct (sim_run _ _ _ _ _ _ _ Hsim Hcb Hrun) as (jp & Hjob & Hsimp).
    assert (Hspec : job_spec (Z.pos (id_cw k)) (Z.pos (id_out k)) (Z.pos (id_err k))
                             pre (start_job w1) jp).
    { eapply job_run_spec; [| split; reflexivity | exact Hjob]. congruence. }
    rewrite <- Hcw, <- Hout, <- Herr, <- Hpid in *.
    destruct Hspec as [_ Hspec]. rewrite Hrf, Hex, Hoc, Hec in Hspec.
    destruct Hspec as (Hjex & Hjoc & Hjec & _ & Hjd). cbn in Hjex, Hjoc, Hjec, Hjd.
    rewrite Hjex, Hjoc, Hjec in Hjd. cbn in Hjd. destruct Hjd as [Hjd Hjbuf].
    assert (Hjproc : j_proc jp = Zombie
                     /\ id_cw k <> id_out k /\ id_cw k <> id_err k).
    { destruct Hsimp as (_ & _ & _ & _ & Hst'). rewrite Hjd in Hst'.
      destruct Hst' as ([Hatt _] & _ & Hps). specialize (Hps Hjex).
      rewrite Hps, lookup_insert_eq in Hz.
      destruct (at_ids _ _ _ _ _ Hatt) as (? & ? & ?).
      conjs; [congruence | assumption | assumption]. }
    destruct Hjproc as (Hjproc & Hn1 & Hn2).
    destruct jp as [ex oc ec code buf jproc pr d]; cbn in *; subst.
    apply permutations_Permutation in Hperm. cbn in Hperm.
    assert (Hjob' : exists j',
               job_run (Z.pos (id_pid k)) (Z.pos (id_cw k)) (Z.pos (id_out k))
                       (Z.pos (id_err k)) sigs
                       (mkJob false false false code
                              (concat_bytes (chunks (Z.pos (id_err k)) pre))
                              Zombie pr None) = Some j'
               /\ j_done j'
                  = Some (join_result st
                            (concat_bytes (chunks (Z.pos (id_err k)) pre)))).
    { repeat (apply elem_of_cons in Hperm; destruct Hperm as [-> | Hperm]).
      7: { apply elem_of_nil in Hperm. contradiction. }
      all: cbn [job_run]; job_exec; cbn [job_run]; job_exec; cbn [job_run]; job_exec.
      all: eexists; split; reflexivity. }
    destruct Hjob' as (j' & Hjob' & Hdone').
    destruct (sim_run_enabled _ _ _ _ _ _ _ Hsimp Hjob') as (w' & Hrun' & Hsim').
    exists w'. split; [exact Hrun' |].
    destruct Hsim' as (_ & _ & _ & _ & Hst'). rewrite Hdone' in Hst'.
    destruct Hst' as [_ Hc'].
    rewrite completions_of_select, Hc', select_snoc, <- completions_of_select.
    rewrite Hnone, <- Htag, Nat.eqb_refl. reflexivity.
Qed.

Lemma join_order_independent_witness :
  exists wp w' w'',
    run [EvIO 3 (IoNormal "fatal: x"); EvChildDies 7]
        (started ["blame"%string] 7 5 6 git_reader_new) = Some wp
    /\ run [EvIO 3 IoEof; EvChildWatch 1 (exited 1); EvIO 2 IoEof] wp = Some w'
    /\ run [EvIO 2 IoEof; EvIO 3 IoEof; EvChildWatch 1 (exited 1)] wp = Some w''
    /\ completions_of 1 w' = [join_result (exited 1) "fatal: x"]
    /\ completions_of 1 w'' = [join_result (exited 1) "fatal: x"].
Proof.
  pose proof (proj2 (join_order_independent ["blame"%string] 7 5 6 git_reader_new
                       (ex_intro _ [] eq_refl))) as H.
  cbv zeta in H.
  eexists.
  assert (Hpre : run [EvIO 3 (IoNormal "fatal: x"); EvChildDies 7]
                     (started ["blame"%string] 7 5 6 git_reader_new) = Some _)
    by (vm_compute; reflexivity).
  match type of Hpre with
  | _ = Some ?wp =>
      assert (Hz : procs wp
                   !! child_pid (priv (started ["blame"%string] 7 5 6 git_reader_new))
                   = Some Zombie) by (vm_compute; reflexivity)
  end.
  pose proof (fun st sigs =>
                H [EvIO 3 (IoNormal "fatal: x"); EvChildDies 7] _ st sigs
                  eq_refl Hpre eq_refl eq_refl eq_refl eq_refl Hz) as H'.
  destruct (H' (exited 1) [EvIO 3 IoEof; EvChildWatch 1 (exited 1); EvIO 2 IoEof])
    as (w' & Hrun' & Hc').
  { change (signals (started ["blame"%string] 7 5 6 git_reader_new) (exited 1))
      with [EvChildWatch 1 (exited 1); EvIO 2 IoEof; EvIO 3 IoEof].
    eapply perm_trans; [apply perm_skip, perm_swap | apply perm_swap]. }
  destruct (H' (exited 1) [EvIO 2 IoEof; EvIO 3 IoEof; EvChildWatch 1 (exited 1)])
    as (w'' & Hrun'' & Hc'').
  { change (signals (started ["blame"%string] 7 5 6 git_reader_new) (exited 1))
      with [EvChildWatch 1 (exited 1); EvIO 2 IoEof; EvIO 3 IoEof].
    eapply perm_trans; [apply perm_swap | apply perm_skip, perm_swap]. }
  exists w', w''. split; [exact Hpre |]. split; [exact Hrun' |].
  split; [exact Hrun'' |]. split; [exact Hc' | exact Hc''].
Defined.

(** C3.  The failing input: exit status 1 and the diagnostic bytes
    ["fatal: bad object\n   "].  The scan of [git_reader_check_complete]
    ends on index [16], the place of the last visible byte, and that index
    is the length the buffer is cut to: the one completion carries the
    exit-status error whose message is
    ["Error invoking git: fatal: bad objec"], which is neither
    ["fatal: bad object"] nor that text behind the words of the format. *)
Theorem exit_status_message_failing_input :
  exists w' err,
    run bad_object_trace (started ["blame"%string] 7 5 6 git_reader_new) = Some w'
    /\ stderr_bytes (started ["blame"%string] 7 5 6 git_reader_new) bad_object_trace
       = bad_object
    /\ trim_len bad_object = 16
    /\ completions_of 1 w' = [Some err]
    /\ domain err = GIT_ERROR /\ code err = GIT_ERROR_EXIT_STATUS
    /\ message err = "Error invoking git: fatal: bad objec"%string
    /\ message err <> "fatal: bad object"%string
    /\ message err <> (message_prefix +:+ "fatal: bad object")%string.
Proof.
  eexists. eexists. split; [vm_compute; reflexivity |].
  split; [vm_compute; reflexivity |]. split; [vm_compute; reflexivity |].
  split; [vm_compute; reflexivity |].
  split; [reflexivity |]. split; [reflexivity |]. split; [reflexivity |].
  split; [discriminate | vm_compute; discriminate].
Qed.

(** C4, as amended.  When the child watch was handed the exit status 0
    and no read failed hard, every completion of the invocation carries no
    error, whatever diagnostic bytes were read; and once both pipes
    reached end of stream there is exactly one. *)
Theorem exit_zero_no_error args pid fo fe w tr w' :
  reachable w ->
  let w1 := started args pid fo fe w in
  callbacks tr -> run tr w1 = Some w' ->
  read_failed tr = false ->
  exit_status (child_watch_source (priv w1)) tr = Some 0 ->
  (forall e, In e (completions_of (invocation w1) w') -> e = None)
  /\ (eof_seen (child_stdout_source (priv w1)) tr = true ->
      eof_seen (child_stderr_source (priv w1)) tr = true ->
      completions_of (invocation w1) w' = [None]).
Proof.
  intros Hreach w1 Hcb Hrun Hrf Hst.
  pose proof (reachable_inv w Hreach) as Hinv.
  destruct (started_run args pid fo fe w tr w' Hinv Hcb Hrun)
    as (j' & _ & (_ & Hspec) & _ & Hcompl & _).
  fold (started args pid fo fe w) in Hspec, Hcompl. fold w1 in Hspec, Hcompl.
  clearbody w1. rewrite Hrf in Hspec.
  destruct Hspec as (Hex & Hoc & Hec & Hcode & Hdone).
  unfold exit_seen in Hex. rewrite Hst in Hex, Hcode. cbn in Hex, Hoc, Hec, Hcode.
  rewrite Hex, Hcode in Hdone. cbn in Hdone. rewrite Hcompl. split.
  - intros e He. destruct (j_oc j' && j_ec j').
    + rewrite Hdone in He. destruct He as [<- | []]. reflexivity.
    + destruct Hdone as [Hd _]. rewrite Hd in He. destruct He.
  - intros Ho He. rewrite Hoc, Hec, Ho, He in Hdone. cbn in Hdone.
    rewrite Hdone. reflexivity.
Qed.

Lemma exit_zero_no_error_witness :
  exists w',
    run [EvIO 3 (IoNormal "warning: slow"); EvChildDies 7; EvIO 2 IoEof;
         EvChildWatch 1 0; EvIO 3 IoEof]
        (started ["blame"%string] 7 5 6 git_reader_new) = Some w'
    /\ completions_of 1 w' = [None].
Proof.
  eexists. split; [vm_compute; reflexivity |].
  refine (proj2 (exit_zero_no_error ["blame"%string] 7 5 6 git_reader_new
                   [EvIO 3 (IoNormal "warning: slow"); EvChildDies 7; EvIO 2 IoEof;
                    EvChildWatch 1 0; EvIO 3 IoEof] _
                   (ex_intro _ [] eq_refl) eq_refl _ eq_refl eq_refl) eq_refl eq_refl).
  vm_compute. reflexivity.
Defined.

(** C4 as stated fails: a read that fails hard after the child's exit
    with status 0 was recorded completes the invocation with the read's
    error. *)
Lemma exit_zero_no_error_counterexample :
  exists w',
    run [EvChildDies 7; EvChildWatch 1 0; EvIO 2 (IoError io_error)]
        (started ["blame"%string] 7 5 6 git_reader_new) = Some w'
    /\ exit_status 1 [EvChildDies 7; EvChildWatch 1 0; EvIO 2 (IoError io_error)]
       = Some 0
    /\ completions_of 1 w' = [Some io_error].
Proof.
  eexists. split; [vm_compute; reflexivity |].
  split; [reflexivity | vm_compute; reflexivity].
Qed.

(** C5, as amended.  Each chunk read from the child's standard output is
    written, in the order read, to the program's own standard output,
    framed as [got stdout: "] chunk ["] newline, and nothing else is
    written there; the caller is handed no chunk: all the reader emits is
    [completed], at most once, which carries an error or nothing. *)
Theorem stdout_chunks_printed args pid fo fe w tr w' :
  reachable w ->
  let w1 := started args pid fo fe w in
  callbacks tr -> run tr w1 = Some w' ->
  debug_output w'
  = debug_output w1 ++ frames (chunks (child_stdout_source (priv w1)) tr)
  /\ (completions w' = completions w1
      \/ exists err, completions w' = completions w1 ++ [(invocation w1, err)]).
Proof.
  intros Hreach w1 Hcb Hrun.
  pose proof (reachable_inv w Hreach) as Hinv.
  destruct (started_sim args pid fo fe w Hinv) as (k & Hsim & Htag & _).
  fold (started args pid fo fe w) in Hsim, Htag. fold w1 in Hsim, Htag.
  destruct (sim_run _ _ _ _ _ _ _ Hsim Hcb Hrun) as (j' & _ & Hsim').
  destruct (started_run args pid fo fe w tr w' Hinv Hcb Hrun)
    as (j'' & _ & (Hpr & _) & Hout & _).
  fold (started args pid fo fe w) in Hpr, Hout. fold w1 in Hpr, Hout.
  split; [rewrite Hout, Hpr; reflexivity |].
  destruct Hsim' as (_ & _ & _ & _ & Hst). rewrite <- Htag.
  destruct (j_done j') as [res |].
  - right. exists res. apply Hst.
  - left. apply Hst.
Qed.

Lemma stdout_chunks_printed_witness :
  exists w',
    run two_chunks (started ["blame"%string] 7 5 6 git_reader_new) = Some w'
    /\ debug_output w' = frames ["ab"%string; "c"%string].
Proof.
  eexists. split; [vm_compute; reflexivity |].
  refine (proj1 (stdout_chunks_printed ["blame"%string] 7 5 6 git_reader_new
                   two_chunks _ (ex_intro _ [] eq_refl) eq_refl _)).
  vm_compute. reflexivity.
Defined.

(** C5 as stated fails: the reader has no consumer to forward stdout
    chunks to.  Its caller only ever sees [completed], which carries an
    error or nothing; the chunks ["ab"] and ["c"] end up, framed, on the
    program's own standard output, which does not read ["abc"]. *)
Lemma stdout_chunks_printed_counterexample :
  exists w',
    run two_chunks (started ["blame"%string] 7 5 6 git_reader_new) = Some w'
    /\ effects w'
       = [Spawn ["git"%string; "blame"%string];
          Fputs ("got stdout: " +:+ dquote); Fwrite "ab"; Fputs (dquote +:+ nl);
          Fputs ("got stdout: " +:+ dquote); Fwrite "c"; Fputs (dquote +:+ nl);
          Completed 1 None]
    /\ printed w' <> "abc"%string.
Proof.
  eexists. split; [vm_compute; reflexivity |].
  split; [reflexivity | discriminate].
Qed.

(** C6.  Whenever a channel watch of the reader is attached, whatever
    completion signals were recorded so far, a read through it that fails
    hard ends the invocation in that very callback: a child still running
    is sent SIGTERM and waited for, no child, no open pipe and no attached
    source are left, and [completed] is emitted at once for the invocation
    under way, carrying the read's error. *)
Theorem read_error_completes_at_once w sid kind tag err :
  reachable w ->
  sources w !! sid = Some (mkWatch kind tag) ->
  kind = WStdout \/ kind = WStderr ->
  exists w',
    step (EvIO sid (IoError err)) w = Some w'
    /\ effects w' = effects w ++ kills w ++ [Completed tag (Some err)]
    /\ tag = invocation w
    /\ (procs w !! child_pid (priv w) = Some Running ->
        kills w = [Sigterm (child_pid (priv w))])
    /\ procs w' = ∅ /\ channels w' = ∅ /\ sources w' = ∅
    /\ has_child (priv w') = false.
Proof.
  intros Hreach Hsrc Hkind.
  pose proof (reachable_inv w Hreach) as Hinv.
  destruct (attached_has_child w sid _ Hinv Hsrc) as [Hhas Htag]. cbn in Htag.
  destruct (close_inv w Hinv) as ([Hh Hs Hp Hc] & _ & _ & He & _).
  exists (g_source_remove sid
            (git_reader_on_read_error tag err w)).
  split.
  { unfold step. cbn [read_fits]. rewrite Hsrc.
    destruct Hkind as [-> | ->]; reflexivity. }
  unfold git_reader_on_read_error, g_source_remove, upd_sources, emit; cbn.
  rewrite He, Hs, Hp, Hc, Hh, delete_empty, <- app_assoc.
  conjs; try reflexivity; [exact Htag | apply kills_running; exact Hhas].
Qed.

Lemma read_error_completes_at_once_witness :
  exists w w',
    run [EvStart ["blame"%string] (Spawned 7 5 6); EvIO 2 IoEof] git_reader_new = Some w
    /\ step (EvIO 3 (IoError io_error)) w = Some w'
    /\ effects w' = effects w ++ [Sigterm 7; Completed 1 (Some io_error)].
Proof.
  eexists.
  assert (Hrun : run [EvStart ["blame"%string] (Spawned 7 5 6); EvIO 2 IoEof]
                     git_reader_new = Some _) by (vm_compute; reflexivity).
  destruct (read_error_completes_at_once _ 3 WStderr 1%nat io_error
              (ex_intro _ _ Hrun) ltac:(vm_compute; reflexivity) (or_intror eq_refl))
    as (w' & Hstep & Heff & _).
  exists w'. split; [exact Hrun |]. split; [exact Hstep | exact Heff].
Defined.

(** C7.  When the program cannot be spawned, start returns [FALSE] with
    the spawn error, leaves no child, no open pipe and no attached source,
    emits nothing, and whatever happens afterwards no completion is ever
    emitted for that call. *)
Theorem spawn_failure_is_synchronous args err w :
  reachable w ->
  let r := git_reader_start args (SpawnFailed err) w in
  snd r = (false, Some err)
  /\ procs (fst r) = ∅ /\ channels (fst r) = ∅ /\ sources (fst r) = ∅
  /\ has_child (priv (fst r)) = false
  /\ completions (fst r) = completions w
  /\ forall tr w',
      run tr (fst r) = Some w' -> completions_of (invocation (fst r)) w' = [].
Proof.
  intros Hreach r. subst r.
  pose proof (reachable_inv w Hreach) as Hinv.
  destruct (start_spec args (SpawnFailed err) w Hinv)
    as (Hinv1 & Hi & _ & _ & Hret & [Hh Hs Hp Hc] & _).
  conjs; try assumption.
  - apply start_completions, Hinv.
  - intros tr w' Hrun.
    rewrite (discarded_run _ tr _ w' Hinv1 (or_intror (conj eq_refl Hh)) Hrun).
    rewrite completions_of_select, start_completions, <- completions_of_select, Hi
      by exact Hinv.
    apply Hinv. lia.
Qed.

Lemma spawn_failure_is_synchronous_witness :
  snd (git_reader_start ["blame"%string] (SpawnFailed enoent) git_reader_new)
  = (false, Some enoent)
  /\ forall tr w',
      run tr (fst (git_reader_start ["blame"%string] (SpawnFailed enoent) git_reader_new))
      = Some w' ->
      completions_of 1 w' = [].
Proof.
  destruct (spawn_failure_is_synchronous ["blame"%string] enoent git_reader_new
              (ex_intro _ [] eq_refl)) as (Hret & _ & _ & _ & _ & _ & Hnever).
  split; [exact Hret | exact Hnever].
Defined.

(** C8.  When start is called while an invocation is under way, closing
    the previous process comes first: a child still running is sent
    SIGTERM and waited for and every watch is removed, so that no child,
    no open pipe and no attached source are left when the spawn is
    attempted; before and after, the reader never owns more than one
    child, and no completion is ever emitted for the discarded
    invocation. *)
Theorem restart_discards_previous args o w :
  reachable w -> has_child (priv w) = true ->
  let w0 := git_reader_close_process true w in
  let w1 := fst (git_reader_start args o w) in
  (size (procs w) <= 1)%nat
  /\ (procs w0 = ∅ /\ channels w0 = ∅ /\ sources w0 = ∅)
  /\ effects w0 = effects w ++ kills w
  /\ (procs w !! child_pid (priv w) = Some Running ->
      kills w = [Sigterm (child_pid (priv w))])
  /\ effects w1 = effects w0 ++ [Spawn ("git"%string :: args)]
  /\ forall tr w',
      run tr w1 = Some w' ->
      completions_of (invocation w) w' = [] /\ (size (procs w') <= 1)%nat.
Proof.
  intros Hreach Hhas w0 w1. subst w0 w1.
  pose proof (reachable_inv w Hreach) as Hinv.
  destruct (close_inv w Hinv) as ([Hh Hs Hp Hc] & _ & _ & He & _).
  destruct (start_spec args o w Hinv) as (Hinv1 & Hi & He1 & _).
  conjs; try assumption.
  - apply inv_one_child, Hinv.
  - apply kills_running, Hhas.
  - rewrite He1, He, <- app_assoc. reflexivity.
  - intros tr w' Hrun. split.
    + assert (Hd : discarded (invocation w) (fst (git_reader_start args o w)))
        by (left; lia).
      rewrite (discarded_run (invocation w) tr _ w' Hinv1 Hd Hrun).
      rewrite completions_of_select, start_completions, <- completions_of_select
        by exact Hinv.
      apply inv_has_child; assumption.
    + apply inv_one_child. eapply inv_run; [exact Hinv1 | exact Hrun].
Qed.

Lemma restart_discards_previous_witness :
  exists w,
    run [EvStart ["blame"%string] (Spawned 7 5 6); EvIO 2 (IoNormal "ab")]
        git_reader_new = Some w
    /\ effects (fst (git_reader_start ["log"%string] (Spawned 8 9 10) w))
       = effects w ++ [Sigterm 7] ++ [Spawn ["git"%string; "log"%string]]
    /\ forall tr w',
        run tr (fst (git_reader_start ["log"%string] (Spawned 8 9 10) w)) = Some w' ->
        completions_of 1 w' = [] /\ (size (procs w') <= 1)%nat.
Proof.
  eexists.
  assert (Hrun : run [EvStart ["blame"%string] (Spawned 7 5 6); EvIO 2 (IoNormal "ab")]
                     git_reader_new = Some _) by (vm_compute; reflexivity).
  destruct (restart_discards_previous ["log"%string] (Spawned 8 9 10) _
              (ex_intro _ _ Hrun) eq_refl) as (_ & _ & He0 & Hk & He1 & Hnever).
  split; [exact Hrun |]. split; [| exact Hnever].
  rewrite He1, He0, (Hk ltac:(vm_compute; reflexivity)), <- app_assoc. reflexivity.
Defined.

(** C9, as amended.  When the join completes with a non-zero exit status
    and the diagnostic bytes are empty or white space only, the one
    completion carries an exit-status error with the fixed, non-empty
    message ["Error invoking git"]. *)
Theorem generic_message_on_blank args pid fo fe w tr w' st :
  reachable w ->
  let w1 := started args pid fo fe w in
  callbacks tr -> run tr w1 = Some w' ->
  read_failed tr = false -> all_signals w1 tr = true ->
  exit_status (child_watch_source (priv w1)) tr = Some st -> st <> 0 ->
  all_space (stderr_bytes w1 tr) = true ->
  completions_of (invocation w1) w'
  = [Some (mkGError GIT_ERROR GIT_ERROR_EXIT_STATUS generic_message)]
  /\ generic_message = "Error invoking git"%string
  /\ generic_message <> EmptyString.
Proof.
  intros Hreach w1 Hcb Hrun Hrf Hall Hst Hnz Hws.
  pose proof (reachable_inv w Hreach) as Hinv.
  destruct (joined_completion args pid fo fe w tr w' Hinv Hcb Hrun Hrf Hall)
    as (st' & Hst' & Hc).
  fold w1 in Hst', Hc. clearbody w1.
  assert (st' = st) by congruence. subst st'.
  rewrite (join_result_all_space st _ Hnz Hws) in Hc.
  split; [exact Hc |]. split; [reflexivity | discriminate].
Qed.

Lemma generic_message_on_blank_witness :
  exists w',
    run [EvIO 3 (IoNormal blank); EvChildDies 7; EvChildWatch 1 (exited 1);
         EvIO 3 IoEof; EvIO 2 IoEof]
        (started ["blame"%string] 7 5 6 git_reader_new) = Some w'
    /\ completions_of 1 w'
       = [Some (mkGError GIT_ERROR GIT_ERROR_EXIT_STATUS generic_message)].
Proof.
  eexists. split; [vm_compute; reflexivity |].
  refine (proj1 (generic_message_on_blank ["blame"%string] 7 5 6 git_reader_new
                   [EvIO 3 (IoNormal blank); EvChildDies 7;
                    EvChildWatch 1 (exited 1); EvIO 3 IoEof; EvIO 2 IoEof] _
                   (exited 1) (ex_intro _ [] eq_refl) eq_refl _ eq_refl eq_refl
                   eq_refl ltac:(discriminate) eq_refl)).
  vm_compute. reflexivity.
Defined.

(** C9 as stated fails: with the exit status 1 recorded and an empty
    diagnostic buffer, a read that fails hard completes the invocation
    with the read's error, which is no exit-status error. *)
Lemma generic_message_on_blank_counterexample :
  exists w',
    run [EvChildDies 7; EvChildWatch 1 (exited 1); EvIO 2 (IoError io_error)]
        (started ["blame"%string] 7 5 6 git_reader_new) = Some w'
    /\ child_exit_code (priv w') = exited 1
    /\ error_string (priv w') = EmptyString
    /\ completions_of 1 w' = [Some io_error]
    /\ code io_error <> GIT_ERROR_EXIT_STATUS.
Proof.
  eexists. split; [vm_compute; reflexivity |].
  split; [reflexivity |]. split; [reflexivity |].
  split; [vm_compute; reflexivity | discriminate].
Qed.

(** C10.  When start is called while an invocation is under way and the
    spawn then fails, the previous invocation was torn down all the same
    (its child terminated, no pipe and no watch left, no completion ever
    emitted for it), and the diagnostic buffer keeps the bytes it had
    before the call. *)
Theorem failed_restart_keeps_diagnostics args err w :
  reachable w -> has_child (priv w) = true ->
  let r := git_reader_start args (SpawnFailed err) w in
  snd r = (false, Some err)
  /\ (procs (fst r) = ∅ /\ channels (fst r) = ∅ /\ sources (fst r) = ∅)
  /\ has_child (priv (fst r)) = false
  /\ effects (fst r) = effects w ++ kills w ++ [Spawn ("git"%string :: args)]
  /\ (procs w !! child_pid (priv w) = Some Running ->
      kills w = [Sigterm (child_pid (priv w))])
  /\ error_string (priv (fst r)) = error_string (priv w)
  /\ forall tr w',
      run tr (fst r) = Some w' -> completions_of (invocation w) w' = [].
Proof.
  intros Hreach Hhas r. subst r.
  pose proof (reachable_inv w Hreach) as Hinv.
  destruct (start_spec args (SpawnFailed err) w Hinv)
    as (Hinv1 & Hi & He & _ & Hret & [Hh Hs Hp Hc] & Hbuf).
  conjs; try assumption.
  - apply kills_running, Hhas.
  - intros tr w' Hrun.
    assert (Hd : discarded (invocation w)
                           (fst (git_reader_start args (SpawnFailed err) w)))
      by (left; lia).
    rewrite (discarded_run (invocation w) tr _ w' Hinv1 Hd Hrun).
    rewrite completions_of_select, start_completions, <- completions_of_select
      by exact Hinv.
    apply inv_has_child; assumption.
Qed.

Lemma failed_restart_keeps_diagnostics_witness :
  exists w,
    run [EvStart ["blame"%string] (Spawned 7 5 6); EvIO 3 (IoNormal "warning: x")]
        git_reader_new = Some w
    /\ error_string
         (priv (fst (git_reader_start ["log"%string] (SpawnFailed enoent) w)))
       = "warning: x"%string
    /\ forall tr w',
        run tr (fst (git_reader_start ["log"%string] (SpawnFailed enoent) w)) = Some w' ->
        completions_of 1 w' = [].
Proof.
  eexists.
  assert (Hrun : run [EvStart ["blame"%string] (Spawned 7 5 6);
                      EvIO 3 (IoNormal "warning: x")]
                     git_reader_new = Some _) by (vm_compute; reflexivity).
  destruct (failed_restart_keeps_diagnostics ["log"%string] enoent _
              (ex_intro _ _ Hrun) eq_refl)
    as (_ & _ & _ & _ & _ & Hbuf & Hnever).
  split; [exact Hrun |]. split; [exact Hbuf | exact Hnever].
Defined.

(** * More of the reader

    Properties of [git-reader.c] beside the claims: disposal, the
    ownership of the child, the pipes and the sources, and the
    diagnostic buffer. *)

Lemma idle_no_callback w e : idle w -> is_callback e = true -> step e w = None.
Proof.
  intros [_ Hsrc Hprocs _] Hcb.
  destruct e as [| | pid | sid st | sid r]; try discriminate; cbn.
  - rewrite Hprocs, lookup_empty. reflexivity.
  - rewrite Hsrc, lookup_empty. reflexivity.
  - rewrite Hsrc, lookup_empty. destruct (read_fits r); reflexivity.
Qed.

Lemma close_has_child kill w :
  has_child (priv (git_reader_close_process kill w)) = false.
Proof.
  unfold git_reader_close_process.
  destruct (has_child (priv w)) eqn:Hhas; [| exact Hhas].
  destruct w as [[hc pid fo fe cw out err code buf] src nid ch pr i eff].
  cbn in Hhas. subst hc. wsimpl.
  destruct out as [| out | out], err as [| err | err], pid as [| pid | pid], kill;
    wsimpl; try reflexivity.
  all: destruct (_ !! _) as [[] |]; reflexivity.
Qed.

Lemma close_effects w i :
  inv w ->
  completions_of i (git_reader_close_process true w) = completions_of i w.
Proof.
  intros H. destruct (close_inv w H) as (_ & _ & _ & He & _).
  unfold completions_of. rewrite He, omap_app, kills_completions_of, app_nil_r.
  reflexivity.
Qed.

(** X1.  Disposing a reader, whatever it is doing, leaves no child, no
    open pipe and no attached source: a child still running is sent
    SIGTERM and reaped.  Nothing is emitted, no callback of the reader can
    run afterwards, and no completion is ever emitted for the invocation
    that was under way. *)
Theorem dispose_releases_everything w :
  reachable w ->
  let w' := git_reader_dispose w in
  (procs w' = ∅ /\ channels w' = ∅ /\ sources w' = ∅
   /\ has_child (priv w') = false)
  /\ effects w' = effects w ++ kills w
  /\ (forall e, is_callback e = true -> step e w' = None)
  /\ forall tr w2,
      run tr w' = Some w2 ->
      completions_of (invocation w) w2 = completions_of (invocation w) w.
Proof.
  intros Hreach w'. pose proof (reachable_inv w Hreach) as Hinv.
  destruct (close_inv w Hinv) as (Hidle & Hi & _ & He & _).
  destruct (dispose_spec w Hinv) as (Hinv' & _).
  fold (git_reader_dispose w) in Hidle, Hi, He. fold w' in Hidle, Hi, He, Hinv'.
  split; [destruct Hidle; auto |]. split; [exact He |].
  split; [intros e; apply idle_no_callback; exact Hidle |].
  intros tr w2 Hrun.
  rewrite (discarded_run (invocation w) tr w' w2 Hinv').
  - apply close_effects, Hinv.
  - right. split; [congruence | apply Hidle].
  - exact Hrun.
Qed.

Lemma dispose_releases_everything_witness :
  exists w,
    run [EvStart ["blame"%string] (Spawned 7 5 6); EvIO 3 (IoNormal "warning")]
        git_reader_new = Some w
    /\ effects (git_reader_dispose w) = effects w ++ [Sigterm 7]
    /\ forall tr w2,
        run tr (git_reader_dispose w) = Some w2 -> completions_of 1 w2 = [].
Proof.
  eexists. split; [vm_compute; reflexivity |].
  match goal with
  | |- context [git_reader_dispose ?w0] =>
      destruct (dispose_releases_everything w0
                  (ex_intro _ [EvStart ["blame"%string] (Spawned 7 5 6);
                               EvIO 3 (IoNormal "warning")] eq_refl))
        as (_ & He & _ & Hnever)
  end.
  split; [exact He | exact Hnever].
Defined.

(** X2.  Closing the process twice is closing it once, whatever the two
    [kill_child] arguments are: the second call finds [has_child] cleared
    and does nothing. *)
Theorem close_process_idempotent kill1 kill2 w :
  git_reader_close_process kill2 (git_reader_close_process kill1 w)
  = git_reader_close_process kill1 w.
Proof.
  pose proof (close_has_child kill1 w) as H.
  unfold git_reader_close_process at 1. rewrite H. reflexivity.
Qed.

(** X3.  As long as no read has failed and a completion signal is still
    missing, the diagnostic buffer holds exactly the chunks read from the
    child's standard error, in the order read: nothing read from standard
    output enters it, and nothing is trimmed before the join. *)
Theorem stderr_accumulates args pid fo fe w tr w' :
  reachable w ->
  let w1 := started args pid fo fe w in
  callbacks tr -> run tr w1 = Some w' ->
  read_failed tr = false -> all_signals w1 tr = false ->
  error_string (priv w') = stderr_bytes w1 tr
  /\ has_child (priv w') = true.
Proof.
  intros Hreach w1 Hcb Hrun Hrf Hall.
  pose proof (reachable_inv w Hreach) as Hinv.
  destruct (started_run args pid fo fe w tr w' Hinv Hcb Hrun)
    as (j' & _ & (_ & Hspec) & _ & _ & Hst).
  fold (started args pid fo fe w) in Hspec, Hst. fold w1 in Hspec, Hst.
  rewrite Hrf in Hspec. destruct Hspec as (Hex & Hoc & Hec & _ & Hfin).
  unfold all_signals in Hall. unfold start_job in Hex, Hoc, Hec, Hfin.
  cbn [j_ex j_oc j_ec j_buf orb] in Hex, Hoc, Hec, Hfin.
  rewrite Hex, Hoc, Hec, Hall in Hfin. destruct Hfin as [Hd Hbuf].
  rewrite Hd in Hst. destruct Hst as (Hhas & Hb & _).
  split; [| exact Hhas]. rewrite Hb, Hbuf. reflexivity.
Qed.

Lemma stderr_accumulates_witness :
  exists w',
    run [EvIO 3 (IoNormal "fatal: "); EvIO 2 (IoNormal "out"); EvIO 3 (IoNormal "bad");
         EvIO 3 IoEof]
        (started ["blame"%string] 7 5 6 git_reader_new) = Some w'
    /\ error_string (priv w') = "fatal: bad"%string.
Proof.
  eexists. split; [vm_compute; reflexivity |].
  refine (proj1 (stderr_accumulates ["blame"%string] 7 5 6 git_reader_new
                   [EvIO 3 (IoNormal "fatal: "); EvIO 2 (IoNormal "out");
                    EvIO 3 (IoNormal "bad"); EvIO 3 IoEof] _
                   (ex_intro _ [] eq_refl) eq_refl _ eq_refl eq_refl)).
  vm_compute. reflexivity.
Defined.

(** X4.  Whenever a step emits [completed], it is for the current
    invocation, and by then the child is reaped, both pipes are closed and
    every source is removed: no callback of the reader can run until the
    next start. *)
Theorem completion_ends_invocation w e w' :
  reachable w -> step e w = Some w' -> completions w' <> completions w ->
  (procs w' = ∅ /\ channels w' = ∅ /\ sources w' = ∅
   /\ has_child (priv w') = false)
  /\ (exists res, completions w' = completions w ++ [(invocation w, res)])
  /\ forall e', is_callback e' = true -> step e' w' = None.
Proof.
  intros Hreach Hstep Hne. pose proof (reachable_inv w Hreach) as Hinv.
  destruct (is_callback e) eqn:Hcb.
  - destruct (callback_step w e w' Hinv Hstep Hcb)
      as (_ & _ & _ & [Hsame | (res & Hc & Hidle)]); [contradiction |].
    split; [destruct Hidle; auto |]. split; [eauto |].
    intros e'. apply idle_no_callback, Hidle.
  - exfalso. apply Hne.
    destruct e; try discriminate; cbn in Hstep; injection Hstep as <-.
    + apply start_completions, Hinv.
    + apply dispose_spec, Hinv.
Qed.

Lemma completion_ends_invocation_witness :
  exists w w',
    run [EvStart ["blame"%string] (Spawned 7 5 6); EvIO 2 IoEof; EvIO 3 IoEof;
         EvChildDies 7] git_reader_new = Some w
    /\ step (EvChildWatch 1 0) w = Some w'
    /\ procs w' = ∅ /\ channels w' = ∅ /\ sources w' = ∅.
Proof.
  eexists. eexists.
  assert (Hrun : run [EvStart ["blame"%string] (Spawned 7 5 6); EvIO 2 IoEof;
                      EvIO 3 IoEof; EvChildDies 7] git_reader_new = Some _)
    by (vm_compute; reflexivity).
  split; [exact Hrun |].
  match goal with
  | |- step ?e ?w0 = Some _ /\ _ =>
      assert (Hstep : step e w0 = Some _) by (vm_compute; reflexivity)
  end.
  split; [exact Hstep |].
  destruct (completion_ends_invocation _ _ _ (ex_intro _ _ Hrun) Hstep)
    as ((Hp & Hc & Hs & _) & _).
  - vm_compute. discriminate.
  - auto.
Defined.

(** X5.  The reader leaks nothing: in every state it can reach, a child
    not waited for yet is the child recorded in [child_pid], an open pipe
    is one of the reader's two channels, and an attached source is named by
    the matching field of the private structure and belongs to the current
    invocation; when [has_child] is [FALSE] there is none of them. *)
Theorem reader_owns_its_resources w :
  reachable w ->
  (has_child (priv w) = false ->
   procs w = ∅ /\ channels w = ∅ /\ sources w = ∅)
  /\ (forall pid ps,
        procs w !! pid = Some ps ->
        has_child (priv w) = true /\ pid = child_pid (priv w) /\ pid <> 0)
  /\ (forall fd,
        fd ∈ channels w ->
        has_child (priv w) = true
        /\ (fd = child_stdout (priv w) \/ fd = child_stderr (priv w)))
  /\ (forall sid wt,
        sources w !! sid = Some wt ->
        has_child (priv w) = true
        /\ w_tag wt = invocation w
        /\ ((sid = child_watch_source (priv w)
             /\ w_kind wt = WChild (child_pid (priv w)))
            \/ (sid = child_stdout_source (priv w) /\ w_kind wt = WStdout)
            \/ (sid = child_stderr_source (priv w) /\ w_kind wt = WStderr))).
Proof.
  intros Hreach. pose proof (reachable_inv w Hreach) as (_ & _ & Hst).
  destruct Hst as [[Hhas Hsrc Hprocs Hchan]
                  | (k & ex & oc & ec
                     & [Hatt Htag Hpid Hcw Hout Herr Hids Hasrc Haprocs Hachan Hnone]
                     & _)].
  - split; [auto |]. rewrite Hsrc, Hprocs, Hchan. conjs.
    + intros pid ps H. rewrite lookup_empty in H. discriminate.
    + intros fd H. set_solver.
    + intros sid wt H. rewrite lookup_empty in H. discriminate.
  - split; [congruence |]. conjs.
    + intros p ps H. split; [assumption |]. destruct ex.
      * rewrite Haprocs, lookup_empty in H. discriminate.
      * destruct Haprocs as [ps' Hps]. rewrite Hps, lookup_insert in H.
        case_decide; [| rewrite lookup_empty in H; discriminate].
        subst p. rewrite Hpid. split; [reflexivity | discriminate].
    + intros fd H. split; [assumption |]. rewrite Hachan in H. set_solver.
    + intros sid wt H. split; [assumption |].
      rewrite Hasrc in H. unfold expected_source in H.
      rewrite Htag in H. rewrite Hpid, Hcw, Hout, Herr.
      repeat case_bool_decide; destruct ex, oc, ec; try discriminate.
      all: injection H as <-; cbn; subst sid; auto 6.
Qed.

Lemma reader_owns_its_resources_witness :
  exists w,
    run [EvStart ["blame"%string] (Spawned 7 5 6); EvIO 2 IoEof] git_reader_new = Some w
    /\ forall sid wt,
        sources w !! sid = Some wt -> w_tag wt = 1%nat /\ (sid = 1 \/ sid = 3).
Proof.
  eexists.
  assert (Hrun : run [EvStart ["blame"%string] (Spawned 7 5 6); EvIO 2 IoEof]
                     git_reader_new = Some _) by (vm_compute; reflexivity).
  split; [exact Hrun |].
  intros sid wt H.
  destruct (reader_owns_its_resources _ (ex_intro _ _ Hrun)) as (_ & _ & _ & Hsrc).
  destruct (Hsrc sid wt H) as (_ & Htag & [[Hs _] | [[Hs Hk] | [Hs _]]]).
  - split; [exact Htag | left; exact Hs].
  - exfalso. revert H. rewrite Hs. vm_compute. discriminate.
  - split; [exact Htag | right; exact Hs].
Defined.

(** X6.  What [git_reader_close_process] removes is there: while
    [has_child] is [TRUE], a source field that is not zero names an
    attached source of its kind, both channels are open, and a [child_pid]
    that is not zero names a child not waited for yet whose child watch is
    attached. *)
Theorem close_process_finds_what_it_removes w :
  reachable w -> has_child (priv w) = true ->
  (child_stdout_source (priv w) <> 0 ->
   sources w !! child_stdout_source (priv w) = Some (mkWatch WStdout (invocation w)))
  /\ (child_stderr_source (priv w) <> 0 ->
      sources w !! child_stderr_source (priv w)
      = Some (mkWatch WStderr (invocation w)))
  /\ (child_pid (priv w) <> 0 ->
      sources w !! child_watch_source (priv w)
      = Some (mkWatch (WChild (child_pid (priv w))) (invocation w))
      /\ is_Some (procs w !! child_pid (priv w)))
  /\ child_stdout (priv w) ∈ channels w /\ child_stderr (priv w) ∈ channels w.
Proof.
  intros Hreach Hhas. pose proof (reachable_inv w Hreach) as (_ & _ & Hst).
  destruct Hst as [[Hidle]
                  | (k & ex & oc & ec
                     & [Hatt Htag Hpid Hcw Hout Herr Hids Hasrc Haprocs Hachan Hnone]
                     & _)]; [congruence |].
  destruct Hids as (Hn1 & Hn2 & Hn3).
  rewrite Hpid, Hcw, Hout, Herr, !Hasrc, Hachan, <- Htag.
  split; [| split; [| split; [| set_solver]]].
  - destruct oc; [congruence | intros _; apply expected_out; assumption].
  - destruct ec; [congruence | intros _; apply expected_err; assumption].
  - destruct ex; [congruence | intros _]. split; [apply expected_cw |].
    destruct Haprocs as [ps ->]. rewrite lookup_insert_eq. eauto.
Qed.

Lemma close_process_finds_what_it_removes_witness :
  exists w,
    run [EvStart ["blame"%string] (Spawned 7 5 6); EvIO 2 IoEof] git_reader_new = Some w
    /\ sources w !! 3 = Some (mkWatch WStderr 1)
    /\ sources w !! 1 = Some (mkWatch (WChild 7) 1).
Proof.
  eexists.
  assert (Hrun : run [EvStart ["blame"%string] (Spawned 7 5 6); EvIO 2 IoEof]
                     git_reader_new = Some _) by (vm_compute; reflexivity).
  split; [exact Hrun |].
  destruct (close_process_finds_what_it_removes _ (ex_intro _ _ Hrun) eq_refl)
    as (_ & He & Hc & _).
  split; [apply He; discriminate | apply Hc; discriminate].
Defined.

Lemma join_result_nonzero st diagnostic :
  st <> 0 ->
  exists rest,
    join_result st diagnostic
    = Some (mkGError GIT_ERROR GIT_ERROR_EXIT_STATUS (generic_message +:+ rest)).
Proof.
  intros Hst. unfold join_result, exit_error.
  destruct (Z.eqb_spec st 0) as [| _]; [contradiction |]. cbn zeta.
  destruct (0 <? trim_len diagnostic).
  - eexists (": " +:+ _). reflexivity.
  - exists EmptyString. reflexivity.
Qed.

(** X7.  Any wait status other than [0], taken as [waitpid] gives it (a
    child killed by a signal included), completes the join with an
    [ExitStatus] error of the reader's own domain whose message starts
    with ["Error invoking git"], whatever the diagnostic buffer holds. *)
Theorem nonzero_status_reports_exit_error args pid fo fe w tr w' st :
  reachable w ->
  let w1 := started args pid fo fe w in
  callbacks tr -> run tr w1 = Some w' ->
  read_failed tr = false -> all_signals w1 tr = true ->
  exit_status (child_watch_source (priv w1)) tr = Some st -> st <> 0 ->
  exists rest,
    completions_of (invocation w1) w'
    = [Some (mkGError GIT_ERROR GIT_ERROR_EXIT_STATUS (generic_message +:+ rest))].
Proof.
  intros Hreach w1 Hcb Hrun Hrf Hall Hst Hnz.
  destruct (joined_completion args pid fo fe w tr w' (reachable_inv w Hreach)
              Hcb Hrun Hrf Hall) as (st' & Hst' & Hc).
  fold w1 in Hst', Hc. rewrite Hst in Hst'. injection Hst' as <-.
  destruct (join_result_nonzero st (stderr_bytes w1 tr) Hnz) as [rest Hj].
  exists rest. rewrite Hc, Hj. reflexivity.
Qed.

Lemma nonzero_status_reports_exit_error_witness :
  exists w' rest,
    run [EvIO 3 (IoNormal "x"); EvChildDies 7; EvChildWatch 1 15; EvIO 3 IoEof;
         EvIO 2 IoEof]
        (started ["blame"%string] 7 5 6 git_reader_new) = Some w'
    /\ completions_of 1 w'
       = [Some (mkGError GIT_ERROR GIT_ERROR_EXIT_STATUS (generic_message +:+ rest))].
Proof.
  eexists.
  assert (Hrun : run [EvIO 3 (IoNormal "x"); EvChildDies 7; EvChildWatch 1 15;
                      EvIO 3 IoEof; EvIO 2 IoEof]
                     (started ["blame"%string] 7 5 6 git_reader_new) = Some _)
    by (vm_compute; reflexivity).
  destruct (nonzero_status_reports_exit_error
              ["blame"%string] 7 5 6 git_reader_new
              [EvIO 3 (IoNormal "x"); EvChildDies 7; EvChildWatch 1 15;
               EvIO 3 IoEof; EvIO 2 IoEof] _ 15
              (ex_intro _ [] eq_refl) eq_refl Hrun eq_refl eq_refl eq_refl)
    as [rest Hc]; [discriminate |].
  exists rest. split; [exact Hrun | exact Hc].
Defined.

Lemma job_run_app pid cw out err tr1 tr2 j j' :
  job_run pid cw out err (tr1 ++ tr2) j = Some j' ->
  exists j1, job_run pid cw out err tr1 j = Some j1
             /\ job_run pid cw out err tr2 j1 = Some j'.
Proof.
  revert j. induction tr1 as [| e tr1 IH]; intros j H; cbn in *.
  - eauto.
  - destruct (job_step pid cw out err e j) as [j0 |]; [| discriminate]. eauto.
Qed.

Section Closed.

Variables pid cw out err : Z.
Hypothesis out_err : out <> err.

Lemma job_finish_flags j :
  j_oc (job_finish j) = j_oc j /\ j_ec (job_finish j) = j_ec j
  /\ (j_done j <> None -> j_done (job_finish j) <> None).
Proof.
  unfold job_finish. destruct (j_ex j && j_oc j && j_ec j); cbn; auto.
Qed.

Lemma closed_step sid e j j1 :
  closed out err sid j -> job_step pid cw out err e j = Some j1 ->
  is_read sid e = false /\ closed out err sid j1.
Proof.
  intros Hc Hstep. unfold job_step in Hstep.
  destruct (j_done j) eqn:Hd; [discriminate |].
  destruct Hc as [Hc | Hc]; [congruence |].
  destruct e as [| | p | s st | s r]; try discriminate.
  - destruct (_ && _); [| discriminate]. injection Hstep as <-.
    split; [reflexivity |]. right. exact Hc.
  - destruct (_ && _); [| discriminate]. injection Hstep as <-.
    split; [reflexivity |]. right.
    destruct (job_finish_flags
                (mkJob true (j_oc j) (j_ec j) st (j_buf j) (j_proc j) (j_printed j)
                       None)) as (-> & -> & _). exact Hc.
  - destruct (negb (read_fits r)); [discriminate |]. cbn [is_read].
    destruct (Z.eqb_spec s out) as [-> | Hso]; cbn [andb] in Hstep.
    + destruct (j_oc j) eqn:Hoc; cbn [negb] in Hstep.
      * destruct (Z.eqb_spec out err) as [| _]; [contradiction | discriminate].
      * destruct Hc as [[-> Hc] | [-> Hc]]; [congruence |].
        split; [apply Z.eqb_neq; assumption |]. right. right. split; [reflexivity |].
        destruct r; injection Hstep as <-; cbn; try assumption.
        destruct (job_finish_flags
                    (mkJob (j_ex j) true (j_ec j) (j_code j) (j_buf j) (j_proc j)
                           (j_printed j) None)) as (_ & -> & _). exact Hc.
    + destruct (Z.eqb_spec s err) as [-> | Hse]; cbn [andb] in Hstep;
        [| discriminate].
      destruct (j_ec j) eqn:Hec; cbn [negb] in Hstep; [discriminate |].
      destruct Hc as [[-> Hc] | [-> Hc]]; [| congruence].
      split; [apply Z.eqb_neq; congruence |]. right. left. split; [reflexivity |].
      destruct r; injection Hstep as <-; cbn; try assumption.
      destruct (job_finish_flags
                  (mkJob (j_ex j) (j_oc j) true (j_code j) (j_buf j) (j_proc j)
                         (j_printed j) None)) as (-> & _ & _). exact Hc.
Qed.

Lemma closed_run sid tr :
  forall j j', closed out err sid j -> job_run pid cw out err tr j = Some j' ->
               existsb (is_read sid) tr = false.
Proof.
  induction tr as [| e tr IH]; intros j j' Hc Hrun; [reflexivity |]. cbn in *.
  destruct (job_step pid cw out err e j) as [j1 |] eqn:Hstep; [| discriminate].
  destruct (closed_step sid e j j1 Hc Hstep) as [-> Hc1]. cbn. eauto.
Qed.

Lemma eof_closes sid j j1 :
  job_step pid cw out err (EvIO sid IoEof) j = Some j1 -> closed out err sid j1.
Proof.
  intros Hstep. unfold job_step in Hstep.
  destruct (j_done j) eqn:Hd; [discriminate |]. cbn in Hstep.
  destruct (Z.eqb_spec sid out) as [-> | Hso]; cbn [andb] in Hstep.
  - destruct (j_oc j) eqn:Hoc; cbn [negb] in Hstep.
    + destruct (Z.eqb_spec out err) as [| _]; [contradiction | discriminate].
    + injection Hstep as <-. right. left. split; [reflexivity |].
      destruct (job_finish_flags
                  (mkJob (j_ex j) true (j_ec j) (j_code j) (j_buf j) (j_proc j)
                         (j_printed j) None)) as (-> & _ & _). reflexivity.
  - destruct (Z.eqb_spec sid err) as [-> | Hse]; cbn [andb] in Hstep; [| discriminate].
    destruct (j_ec j) eqn:Hec; cbn [negb] in Hstep; [discriminate |].
    injection Hstep as <-. right. right. split; [reflexivity |].
    destruct (job_finish_flags
                (mkJob (j_ex j) (j_oc j) true (j_code j) (j_buf j) (j_proc j)
                       (j_printed j) None)) as (_ & -> & _). reflexivity.
Qed.

End Closed.

(** X8.  After a read of a pipe reported end of stream, that pipe is
    never read again: the callback returned [FALSE], which detached its
    source. *)
Theorem no_read_after_eof args pid fo fe w tr1 sid tr2 w' :
  reachable w ->
  let w1 := started args pid fo fe w in
  callbacks (tr1 ++ EvIO sid IoEof :: tr2) ->
  run (tr1 ++ EvIO sid IoEof :: tr2) w1 = Some w' ->
  existsb (is_read sid) tr2 = false.
Proof.
  intros Hreach w1 Hcb Hrun.
  destruct (started_sim args pid fo fe w (reachable_inv w Hreach))
    as (k & Hsim & _ & _ & _ & _ & _ & Hoe & _).
  fold (started args pid fo fe w) in Hsim. fold w1 in Hsim.
  destruct (sim_run _ _ _ _ _ _ _ Hsim Hcb Hrun) as (j' & Hjob & _).
  apply job_run_app in Hjob. destruct Hjob as (j1 & _ & Hjob). cbn in Hjob.
  destruct (job_step _ _ _ _ (EvIO sid IoEof) j1) as [j2 |] eqn:Hstep;
    [| discriminate].
  eapply closed_run; [| | exact Hjob].
  - intros H. apply Hoe. injection H. auto.
  - eapply eof_closes; [| exact Hstep]. intros H. apply Hoe. injection H. auto.
Qed.

Lemma no_read_after_eof_witness :
  exists w',
    run ([EvIO 2 (IoNormal "ab")] ++ EvIO 2 IoEof :: [EvIO 3 (IoNormal "c"); EvChildDies 7])
        (started ["blame"%string] 7 5 6 git_reader_new) = Some w'
    /\ existsb (is_read 2) [EvIO 3 (IoNormal "c"); EvChildDies 7] = false.
Proof.
  eexists.
  assert (Hrun : run ([EvIO 2 (IoNormal "ab")]
                      ++ EvIO 2 IoEof :: [EvIO 3 (IoNormal "c"); EvChildDies 7])
                     (started ["blame"%string] 7 5 6 git_reader_new) = Some _)
    by (vm_compute; reflexivity).
  split; [exact Hrun |].
  exact (no_read_after_eof ["blame"%string] 7 5 6 git_reader_new
           [EvIO 2 (IoNormal "ab")] 2 [EvIO 3 (IoNormal "c"); EvChildDies 7] _
           (ex_intro _ [] eq_refl) eq_refl Hrun).
Defined.

(** X22.  The result of the join is the error assembly applied to the
    invocation's own wait status and to all the bytes its child wrote to
    standard error: neither the exit code nor the diagnostics of an
    earlier invocation take part, and by then the reader has no child. *)
Theorem join_delivers_own_status_and_diagnostics args pid fo fe w tr w' :
  reachable w ->
  let w1 := started args pid fo fe w in
  callbacks tr -> run tr w1 = Some w' ->
  read_failed tr = false -> all_signals w1 tr = true ->
  exists st,
    exit_status (child_watch_source (priv w1)) tr = Some st
    /\ completions_of (invocation w1) w'
       = [snd (exit_error st (stderr_bytes w1 tr))]
    /\ has_child (priv w') = false.
Proof.
  intros Hreach w1 Hcb Hrun Hrf Hall.
  pose proof (reachable_inv w Hreach) as Hinv.
  destruct (joined_completion args pid fo fe w tr w' Hinv Hcb Hrun Hrf Hall)
    as (st & Hst & Hc).
  exists st. split; [exact Hst |]. split; [exact Hc |].
  destruct (started_run args pid fo fe w tr w' Hinv Hcb Hrun)
    as (j' & _ & _ & _ & Hc' & Hdone).
  fold (started args pid fo fe w) in Hc'. rewrite Hc in Hc'.
  destruct (j_done j'); [apply Hdone | discriminate].
Qed.

Lemma join_delivers_own_status_and_diagnostics_witness :
  exists w',
    run [EvIO 3 (IoNormal "warning: "); EvChildDies 7; EvIO 3 (IoNormal "slow");
         EvIO 2 IoEof; EvIO 3 IoEof; EvChildWatch 1 0]
        (started ["blame"%string] 7 5 6 git_reader_new) = Some w'
    /\ completions_of 1 w' = [snd (exit_error 0 "warning: slow")].
Proof.
  eexists.
  assert (Hrun : run [EvIO 3 (IoNormal "warning: "); EvChildDies 7;
                      EvIO 3 (IoNormal "slow"); EvIO 2 IoEof; EvIO 3 IoEof;
                      EvChildWatch 1 0]
                     (started ["blame"%string] 7 5 6 git_reader_new) = Some _)
    by (vm_compute; reflexivity).
  split; [exact Hrun |].
  destruct (join_delivers_own_status_and_diagnostics
              ["blame"%string] 7 5 6 git_reader_new
              [EvIO 3 (IoNormal "warning: "); EvChildDies 7; EvIO 3 (IoNormal "slow");
               EvIO 2 IoEof; EvIO 3 IoEof; EvChildWatch 1 0] _
              (ex_intro _ [] eq_refl) eq_refl Hrun eq_refl eq_refl)
    as (st & Hst & Hc & _).
  vm_compute in Hst. injection Hst as <-. exact Hc.
Defined.

(** * The source view: proofs *)

Lemma str_take_length s : forall n, (n <= String.length s)%nat ->
  String.length (str_take n s) = n.
Proof.
  induction s as [| c s IH]; intros [| n] H; cbn in *; try lia.
  rewrite IH by lia. reflexivity.
Qed.

Lemma str_take_all s : forall n, (String.length s <= n)%nat -> str_take n s = s.
Proof.
  induction s as [| c s IH]; intros [| n] H; cbn in *; try lia; try reflexivity.
  rewrite IH by lia. reflexivity.
Qed.

Lemma char_at_str_take s : forall n i, (i < n)%nat ->
  char_at (str_take n s) i = char_at s i.
Proof.
  induction s as [| c s IH]; intros [| n] i H; try lia; try reflexivity.
  destruct i as [| i]; [reflexivity |].
  change (char_at (str_take n s) i = char_at s i). apply IH. lia.
Qed.

Lemma c_str_take s : forall n, (n <= String.length (c_str s))%nat ->
  c_str (str_take n s) = str_take n (c_str s).
Proof.
  induction s as [| c s IH]; intros [| n] H; try reflexivity.
  cbn in *. destruct (Ascii.eqb c Ascii.zero); cbn in *; [lia |].
  rewrite IH by lia. reflexivity.
Qed.

Lemma char_at_c_str s : forall i, (i < String.length (c_str s))%nat ->
  char_at (c_str s) i = char_at s i.
Proof.
  induction s as [| c s IH]; intros i H; cbn in *; [lia |].
  destruct (Ascii.eqb c Ascii.zero); cbn in *; [lia |].
  destruct i as [| i]; [reflexivity |].
  change (char_at (c_str s) i = char_at s i). apply IH. lia.
Qed.

Lemma all_space_chars s :
  (forall i, (i < String.length s)%nat -> isspace (char_at s i) = true) ->
  all_space s = true.
Proof.
  induction s as [| c s IH]; intros H; [reflexivity |].
  cbn [all_space]. apply andb_true_intro. split.
  - apply (H 0%nat). cbn. lia.
  - apply IH. intros i Hi. apply (H (S i)). cbn. lia.
Qed.

(** A string whose bytes from [k] on are white space is its first [k]
    bytes followed by white space. *)
Lemma str_take_split s : forall k,
  (k <= String.length s)%nat ->
  (forall i, (k <= i < String.length s)%nat -> isspace (char_at s i) = true) ->
  exists ws, s = str_take k s +:+ ws /\ all_space ws = true.
Proof.
  induction s as [| c s IH]; intros k Hk Hsp.
  - exists EmptyString. destruct k; split; reflexivity.
  - destruct k as [| k].
    + exists (String c s). split; [reflexivity |].
      apply all_space_chars. intros i Hi. apply Hsp. lia.
    + destruct (IH k) as (ws & Hs & Hws).
      * cbn in Hk. lia.
      * intros i Hi. apply (Hsp (S i)). cbn. lia.
      * exists ws. split; [| exact Hws].
        change (String c s = String c (str_take k s +:+ ws)). rewrite <- Hs.
        reflexivity.
Qed.

Lemma rtrim_spec t : forall n,
  (SourceView.rtrim t n <= n)%nat
  /\ (forall i, (SourceView.rtrim t n <= i < n)%nat -> isspace (char_at t i) = true)
  /\ (SourceView.rtrim t n = 0%nat
      \/ isspace (char_at t (SourceView.rtrim t n - 1)) = false).
Proof.
  induction n as [| n (Hle & Hsp & Hlast)]; cbn.
  - split; [lia |]. split; [intros; lia | left; reflexivity].
  - destruct (isspace (char_at t n)) eqn:Hc.
    + split; [lia |]. split; [| exact Hlast].
      intros i Hi. destruct (Nat.eq_dec i n) as [-> | Hne]; [exact Hc |].
      apply Hsp. lia.
    + split; [lia |]. split; [intros; lia |]. right.
      replace (S n - 1)%nat with n by lia. exact Hc.
Qed.

Lemma to_gint_small z : 0 <= z < 2 ^ 31 -> SourceView.to_gint z = z.
Proof.
  intros H. unfold SourceView.to_gint. rewrite Z.mod_small by lia.
  destruct (Z.ltb_spec z (2 ^ 31)); lia.
Qed.


Lemma str_take_length_le s : forall n, (String.length (str_take n s) <= n)%nat.
Proof.
  induction s as [| c s IH]; intros [| n]; cbn; try lia.
  specialize (IH n). lia.
Qed.

Lemma to_guint_small z : 0 <= z < 2 ^ 32 -> SourceView.to_guint z = z.
Proof. intros H. apply Z.mod_small. exact H. Qed.

Lemma to_guint_range z : 0 <= SourceView.to_guint z < 2 ^ 32.
Proof. apply Z.mod_pos_bound. lia. Qed.

Lemma gint_add_some a b s :
  SourceView.gint_add a b = Some s -> s = a + b /\ - 2 ^ 31 <= s < 2 ^ 31.
Proof.
  unfold SourceView.gint_add. intros H.
  destruct (Z.leb_spec (- 2 ^ 31) (a + b)); destruct (Z.ltb_spec (a + b) (2 ^ 31));
    cbn in H; try discriminate. injection H as <-. lia.
Qed.

(** The loop of the expose handler draws the lines of the range in order,
    as long as the range lies inside the source. *)
Lemma draw_lines_inside v source : forall rounds line_num,
  0 <= line_num ->
  line_num + Z.of_nat rounds <= Z.of_nat (length source) ->
  SourceView.x_offset v <> - 2 ^ 31 ->
  SourceView.draw_lines v source line_num rounds
  = Some (flat_map
            (fun i => match SourceView.git_annotated_source_get_line source i with
                      | Some line => SourceView.draw_line v i line
                      | None => []
                      end)
            (seqZ line_num (Z.of_nat rounds))).
Proof.
  induction rounds as [| n IH]; intros i Hi Hn Hx; [reflexivity |].
  cbn [SourceView.draw_lines].
  assert (Hget : exists line,
             SourceView.git_annotated_source_get_line source i = Some line).
  { unfold SourceView.git_annotated_source_get_line.
    destruct (Z.ltb_spec i 0); [lia |].
    apply lookup_lt_is_Some_2. lia. }
  destruct Hget as [line Hget]. rewrite Hget.
  destruct (Z.eqb_spec (SourceView.x_offset v) (- 2 ^ 31)); [contradiction |].
  rewrite IH by lia.
  replace (Z.of_nat (S n)) with (Z.succ (Z.of_nat n)) by lia.
  rewrite (seqZ_cons i (Z.succ (Z.of_nat n))) by lia. cbn [flat_map]. rewrite Hget.
  replace (Z.pred (Z.succ (Z.of_nat n))) with (Z.of_nat n) by lia.
  replace (Z.succ i) with (i + 1) by lia. reflexivity.
Qed.

Module SourceViewFacts.
Import SourceView.

(** X9.  The text shown for a line is the line without its trailing
    white space: what is cut is white space only, and what is shown is
    empty or ends in a byte that is not white space (for a line shorter
    than 2^31 bytes). *)
Theorem line_text_loses_trailing_space line :
  strlen (text line) < 2 ^ 31 ->
  let shown := git_source_view_set_text_for_line line in
  (exists ws, c_str (text line) = shown +:+ ws /\ all_space ws = true)
  /\ (shown = EmptyString \/ isspace (last_char shown) = false).
Proof.
  intros Hlen shown. subst shown. unfold git_source_view_set_text_for_line.
  unfold strlen in *. generalize dependent (text line). intros t.
  remember (String.length (c_str t)) as n eqn:Hn. intros Hlen.
  rewrite to_gint_small by lia. unfold pango_layout_set_text.
  destruct (Z.ltb_spec 0 (Z.of_nat n)) as [Hpos | Hz].
  - rewrite Nat2Z.id. destruct (rtrim_spec t n) as (Hle & Hsp & Hlast).
    revert Hle Hsp Hlast. generalize (rtrim t n). intros k Hle Hsp Hlast.
    destruct (Z.ltb_spec (Z.of_nat k) 0) as [| _]; [lia |].
    rewrite Nat2Z.id, c_str_take by lia. split.
    + apply str_take_split; [lia |]. rewrite <- Hn. intros i Hi.
      rewrite char_at_c_str by lia. apply Hsp. lia.
    + destruct k as [| k]; [left; destruct (c_str t); reflexivity |].
      destruct Hlast as [Hk | Hlast]; [discriminate |].
      right. unfold last_char. rewrite str_take_length by lia.
      rewrite char_at_str_take by lia. rewrite char_at_c_str by lia.
      exact Hlast.
  - assert (Hn0 : n = 0%nat) by lia. subst n. rewrite Hn0.
    assert (Hc : c_str t = EmptyString)
      by (destruct (c_str t); [reflexivity | discriminate]).
    assert (Ht : str_take 0 t = EmptyString) by (destruct t; reflexivity).
    change (Z.of_nat 0 <? 0) with false. cbn iota.
    change (Z.to_nat (Z.of_nat 0)) with 0%nat. rewrite Ht, Hc.
    split; [exists EmptyString; split; reflexivity | left; reflexivity].
Qed.


Lemma line_text_loses_trailing_space_witness :
  let line := mkLine (mkCommit "3f2a9c01" (mkColor 0 0 0))
                     ("  return 0;   " +:+ nl) in
  strlen (text line) < 2 ^ 31
  /\ (exists ws, c_str (text line) = git_source_view_set_text_for_line line +:+ ws
                 /\ all_space ws = true)
  /\ (git_source_view_set_text_for_line line = EmptyString
      \/ isspace (last_char (git_source_view_set_text_for_line line)) = false).
Proof.
  intros line.
  assert (H : strlen (text line) < 2 ^ 31) by (vm_compute; reflexivity).
  split; [exact H | exact (line_text_loses_trailing_space line H)].
Defined.

(** X10.  The text shown for a commit is the first six bytes of its
    hash, and the whole hash when it has no more than six. *)
Theorem commit_text_is_hash_prefix commit :
  strlen (git_commit_get_hash commit) < 2 ^ 31 ->
  let shown := git_source_view_set_text_for_commit commit in
  shown = str_take 6 (c_str (git_commit_get_hash commit))
  /\ (String.length shown <= 6)%nat
  /\ (strlen (git_commit_get_hash commit) <= 6 ->
      shown = c_str (git_commit_get_hash commit)).
Proof.
  intros Hlen shown.
  assert (Hs : shown = str_take 6 (c_str (git_commit_get_hash commit))).
  { subst shown. unfold git_source_view_set_text_for_commit, strlen in *.
    generalize dependent (git_commit_get_hash commit). intros h Hlen.
    rewrite to_gint_small by lia. unfold GIT_SOURCE_VIEW_COMMIT_HASH_LENGTH.
    unfold pango_layout_set_text.
    destruct (Z.ltb_spec 6 (Z.of_nat (String.length (c_str h)))) as [Hlong | Hshort].
    - change (6 <? 0) with false. cbn iota. change (Z.to_nat 6) with 6%nat.
      apply c_str_take. lia.
    - destruct (Z.ltb_spec (Z.of_nat (String.length (c_str h))) 0); [lia |].
      rewrite Nat2Z.id, c_str_take by lia.
      rewrite !str_take_all by lia. reflexivity. }
  split; [exact Hs |]. split.
  - rewrite Hs. apply str_take_length_le.
  - intros Hshort. rewrite Hs. apply str_take_all. unfold strlen in Hshort. lia.
Qed.

Lemma commit_text_is_hash_prefix_witness :
  let commit := mkCommit "3f2a9c01d4" (mkColor 0 0 0) in
  strlen (git_commit_get_hash commit) < 2 ^ 31
  /\ git_source_view_set_text_for_commit commit = "3f2a9c"%string.
Proof.
  intros commit.
  assert (H : strlen (git_commit_get_hash commit) < 2 ^ 31) by (vm_compute; reflexivity).
  split; [exact H |].
  exact (proj1 (commit_text_is_hash_prefix commit H)).
Defined.

Lemma exposed_lines_inside v n area top bottom :
  0 <= SourceView.line_height v -> 0 <= n ->
  gint_add (rect_y area) (y_offset v) = Some top ->
  gint_add top (rect_height area) = Some bottom ->
  exists line_start line_end,
    exposed_lines v n area = Some (line_start, line_end)
    /\ 0 <= line_start <= line_end /\ line_end <= n.
Proof.
  intros Hlh Hn Ht Hb. unfold exposed_lines. rewrite Ht, Hb.
  pose proof (to_guint_range top) as Hr1.
  pose proof (to_guint_range (bottom + line_height v - 1)) as Hr2.
  assert (H1 : 0 <= to_guint top / line_height v) by (apply Z_div_nonneg_nonneg; lia).
  assert (H2 : 0 <= to_guint (bottom + line_height v - 1) / line_height v)
    by (apply Z_div_nonneg_nonneg; lia).
  do 2 eexists. split; [reflexivity |].
  repeat match goal with
         | |- context [if ?a <? ?b then _ else _] => destruct (Z.ltb_spec a b)
         end; lia.
Qed.

(** X11.  The expose handler never asks for a line outside the source:
    whatever the exposed area and the scroll offsets are, as long as the
    two sums of [gint]s do not overflow, it draws and returns [FALSE]. *)
Theorem expose_stays_inside_source v area top bottom :
  0 <= line_height v ->
  gint_add (rect_y area) (y_offset v) = Some top ->
  gint_add top (rect_height area) = Some bottom ->
  x_offset v <> - 2 ^ 31 ->
  exists draws, git_source_view_expose_event v area = Some (draws, false).
Proof.
  intros Hlh Ht Hb Hx. unfold git_source_view_expose_event.
  destruct (paint_source v) as [source |]; [| eauto].
  destruct (line_height v =? 0); [eauto |].
  destruct (exposed_lines_inside v (git_annotated_source_get_n_lines source)
              area top bottom Hlh ltac:(unfold git_annotated_source_get_n_lines; lia)
              Ht Hb) as (s & e & -> & Hs & He).
  unfold git_annotated_source_get_n_lines in He.
  rewrite draw_lines_inside by (rewrite ?Z2Nat.id; lia). eauto.
Qed.


Lemma expose_stays_inside_source_witness :
  let v := mkView (Some [mkLine (mkCommit "3f2a9c01" (mkColor 0 0 0)) "a";
                         mkLine (mkCommit "77aa01" (mkColor 9 9 9)) "b"])
                  10 40 50 0 5 (mkRect 0 0 200 100) true in
  exists draws,
    git_source_view_expose_event v (mkRect 0 0 200 100) = Some (draws, false).
Proof.
  intros v.
  apply (expose_stays_inside_source v (mkRect 0 0 200 100) 5 105);
    vm_compute; congruence.
Defined.

Lemma div_bounds a b : 0 < b -> b * (a / b) <= a < b * (a / b + 1).
Proof.
  intros Hb. split; [apply Z.mul_div_le; lia |].
  pose proof (Z.mul_succ_div_gt a b Hb). lia.
Qed.

(** X12.  For an exposed area at a document position that is not
    negative, the expose handler paints the lines of a range, in order,
    and a line is in that range exactly when it exists and its row
    [[i * line_height, (i + 1) * line_height)] meets the exposed rows
    [[top, top + height)] (for a height of [0]: when [top] lies strictly
    inside the row). *)
Theorem expose_paints_the_lines_under_the_area v source area :
  paint_source v = Some source ->
  0 < line_height v ->
  let top := rect_y area + y_offset v in
  0 <= top -> 0 <= rect_height area ->
  top + rect_height area + line_height v <= 2 ^ 31 ->
  x_offset v <> - 2 ^ 31 ->
  exists line_start line_end,
    git_source_view_expose_event v area
    = Some (flat_map
              (fun i => match git_annotated_source_get_line source i with
                        | Some line => draw_line v i line
                        | None => []
                        end)
              (seqZ line_start (line_end - line_start)),
            false)
    /\ forall i,
        line_start <= i < line_end
        <-> (0 <= i < git_annotated_source_get_n_lines source
             /\ i * line_height v < top + rect_height area
             /\ top < (i + 1) * line_height v).
Proof.
  intros Hsrc Hlh top Htop Hh Hfit Hx.
  assert (Ht : gint_add (rect_y area) (y_offset v) = Some top).
  { unfold gint_add. fold top.
    destruct (Z.leb_spec (- 2 ^ 31) top); [| lia].
    destruct (Z.ltb_spec top (2 ^ 31)); [reflexivity | lia]. }
  assert (Hb : gint_add top (rect_height area) = Some (top + rect_height area)).
  { unfold gint_add.
    destruct (Z.leb_spec (- 2 ^ 31) (top + rect_height area)); [| lia].
    destruct (Z.ltb_spec (top + rect_height area) (2 ^ 31)); [reflexivity | lia]. }
  unfold git_source_view_expose_event. rewrite Hsrc.
  destruct (Z.eqb_spec (line_height v) 0) as [| _]; [lia |].
  unfold exposed_lines. rewrite Ht, Hb.
  rewrite !to_guint_small by lia.
  pose proof (div_bounds top (line_height v) Hlh) as Hs.
  pose proof (div_bounds (top + rect_height area + line_height v - 1)
                         (line_height v) Hlh) as He.
  unfold git_annotated_source_get_n_lines.
  set (n := Z.of_nat (length source)) in *.
  set (S := top / line_height v) in *.
  set (E := (top + rect_height area + line_height v - 1) / line_height v) in *.
  assert (HS : 0 <= S) by (apply Z.div_pos; lia).
  assert (HE : 0 <= E) by (apply Z.div_pos; lia).
  assert (Hn : 0 <= n) by (subst n; lia).
  set (e := if n <? E then n else E).
  set (s := if e <? S then e else S).
  assert (Hrange : 0 <= s <= e /\ e <= n).
  { subst s e. destruct (Z.ltb_spec n E);
      match goal with |- context [if ?a <? ?b then _ else _] =>
        destruct (Z.ltb_spec a b) end; lia. }
  exists s, e. split.
  - rewrite draw_lines_inside by (rewrite ?Z2Nat.id; try assumption; subst n; lia).
    rewrite Z2Nat.id by lia. reflexivity.
  - intros i. subst s e.
    destruct (Z.ltb_spec n E);
      match goal with |- context [if ?a <? ?b then _ else _] =>
        destruct (Z.ltb_spec a b) end; nia.
Qed.

Lemma expose_paints_the_lines_under_the_area_witness :
  let source := [mkLine (mkCommit "3f2a9c01" (mkColor 0 0 0)) "a";
                 mkLine (mkCommit "77aa01" (mkColor 9 9 9)) "b";
                 mkLine (mkCommit "77aa01" (mkColor 9 9 9)) "c"] in
  let v := mkView (Some source) 10 40 50 0 5 (mkRect 0 0 200 100) true in
  exists line_start line_end,
    git_source_view_expose_event v (mkRect 0 3 200 10)
    = Some (flat_map
              (fun i => match git_annotated_source_get_line source i with
                        | Some line => draw_line v i line
                        | None => []
                        end)
              (seqZ line_start (line_end - line_start)),
            false)
    /\ forall i,
        line_start <= i < line_end
        <-> (0 <= i < 3 /\ i * 10 < 18 /\ 8 < (i + 1) * 10).
Proof.
  intros source v.
  apply (expose_paints_the_lines_under_the_area v source (mkRect 0 3 200 10));
    vm_compute; congruence.
Defined.

Lemma invert_channel r :
  0 <= r < 2 ^ 16 -> to_guint16 (Z.lnot r) = 65535 - r.
Proof.
  intros H. unfold to_guint16, Z.lnot.
  replace (Z.pred (- r)) with (65535 - r + (-1) * 2 ^ 16) by lia.
  rewrite Z.mod_add by lia. apply Z.mod_small. lia.
Qed.

(** X13.  The hash of a line is drawn in the inverse of the colour of
    the band under it: every channel of the ink is [65535] minus the
    channel of the band, so it differs from it, and inverting twice gives
    the colour back. *)
Theorem ink_differs_from_band v line_num line :
  let color := git_commit_get_color (commit line) in
  0 <= red color < 2 ^ 16 -> 0 <= green color < 2 ^ 16 ->
  0 <= blue color < 2 ^ 16 ->
  exists ink,
    draw_line v line_num line !! 0%nat = Some (Cairo_set_source_rgb color)
    /\ draw_line v line_num line !! 3%nat = Some (Cairo_set_source_rgb ink)
    /\ red ink = 65535 - red color /\ green ink = 65535 - green color
    /\ blue ink = 65535 - blue color
    /\ red ink <> red color /\ green ink <> green color /\ blue ink <> blue color
    /\ invert ink = color.
Proof.
  destruct line as [[h [r g b]] t]. cbn [commit git_commit_get_color red green blue].
  intros Hr Hg Hb. exists (invert (mkColor r g b)).
  split; [reflexivity |]. split; [reflexivity |].
  unfold invert. cbn [red green blue].
  rewrite !invert_channel by lia.
  repeat split; try lia. f_equal; lia.
Qed.

Lemma ink_differs_from_band_witness :
  let line := mkLine (mkCommit "3f2a9c01" (mkColor 32767 65535 0)) "a" in
  let v := mkView (Some [line]) 10 40 50 0 5 (mkRect 0 0 200 100) true in
  exists ink,
    draw_line v 0 line !! 3%nat = Some (Cairo_set_source_rgb ink)
    /\ red ink = 32768 /\ green ink = 0 /\ blue ink = 65535.
Proof.
  intros line v.
  destruct (ink_differs_from_band v 0 line) as (ink & _ & H & Hr & Hg & Hb & _);
    [vm_compute; split; congruence ..|].
  exists ink. auto.
Defined.

(** X14.  When the exposed area starts at a negative document position
    (a scroll offset below [0]), nothing is painted, even when the area
    reaches into the source: the start line is computed by an unsigned
    division. *)
Theorem nothing_painted_above_the_source v source area top bottom :
  paint_source v = Some source ->
  0 < line_height v ->
  gint_add (rect_y area) (y_offset v) = Some top -> top < 0 ->
  gint_add top (rect_height area) = Some bottom ->
  git_annotated_source_get_n_lines source * line_height v <= 2 ^ 31 ->
  git_source_view_expose_event v area = Some ([], false).
Proof.
  intros Hsrc Hlh Ht Hneg Hb Hn.
  unfold git_source_view_expose_event. rewrite Hsrc.
  destruct (Z.eqb_spec (line_height v) 0) as [| _]; [lia |].
  unfold exposed_lines. rewrite Ht, Hb.
  apply gint_add_some in Ht. destruct Ht as [_ Ht].
  assert (Hu : to_guint top = top + 2 ^ 32).
  { unfold to_guint. replace top with (top + 2 ^ 32 + (-1) * 2 ^ 32) at 1 by lia.
    rewrite Z.mod_add by lia. apply Z.mod_small. lia. }
  rewrite Hu.
  pose proof (div_bounds (top + 2 ^ 32) (line_height v) Hlh) as Hs.
  pose proof (to_guint_range (bottom + line_height v - 1)) as Hr.
  unfold git_annotated_source_get_n_lines in *.
  set (n := Z.of_nat (length source)) in *.
  set (S := (top + 2 ^ 32) / line_height v) in *.
  set (E := to_guint (bottom + line_height v - 1) / line_height v) in *.
  assert (HE : 0 <= E) by (apply Z.div_pos; lia).
  assert (HnS : n <= S) by nia.
  assert (Hz : (if (if n <? E then n else E) <? S
                then (if n <? E then n else E) else S)
               = (if n <? E then n else E)).
  { destruct (Z.ltb_spec n E);
      match goal with |- context [if ?a <? ?b then _ else _] =>
        destruct (Z.ltb_spec a b) end; lia. }
  rewrite Hz, Z.sub_diag. reflexivity.
Qed.

Lemma nothing_painted_above_the_source_witness :
  let source := [mkLine (mkCommit "3f2a9c01" (mkColor 0 0 0)) "a";
                 mkLine (mkCommit "77aa01" (mkColor 9 9 9)) "b"] in
  let v := mkView (Some source) 10 40 50 0 (- 5) (mkRect 0 0 200 100) true in
  git_source_view_expose_event v (mkRect 0 0 200 100) = Some ([], false).
Proof.
  intros source v.
  apply (nothing_painted_above_the_source v source (mkRect 0 0 200 100) (- 5) 95);
    vm_compute; congruence.
Defined.


Lemma measure_line_grows extents m line :
  below m (measure_line extents m line) /\ holds extents (measure_line extents m line) line.
Proof.
  destruct m as [[h w] g]. unfold measure_line, below, holds.
  repeat match goal with
         | |- context [if ?a <? ?b then _ else _] =>
             lazymatch a with
             | context [if _ then _ else _] => fail
             | _ => destruct (Z.ltb_spec a b)
             end
         end; lia.
Qed.

Lemma holds_below extents m m' line :
  below m m' -> holds extents m line -> holds extents m' line.
Proof.
  destruct m as [[h w] g], m' as [[h' w'] g']. unfold below, holds. lia.
Qed.

Lemma below_trans m1 m2 m3 : below m1 m2 -> below m2 m3 -> below m1 m3.
Proof.
  destruct m1 as [[? ?] ?], m2 as [[? ?] ?], m3 as [[? ?] ?]. unfold below. lia.
Qed.

Lemma measure_fold extents source : forall m,
  below m (fold_left (measure_line extents) source m)
  /\ forall line, In line source ->
                  holds extents (fold_left (measure_line extents) source m) line.
Proof.
  induction source as [| l source IH]; intros m; cbn [fold_left].
  - split; [destruct m as [[? ?] ?]; unfold below; lia | intros line []].
  - destruct (measure_line_grows extents m l) as [Hb Hh].
    destruct (IH (measure_line extents m l)) as [Hb' Hall]. split.
    + eapply below_trans; eauto.
    + intros line [<- | Hin]; [| auto]. eapply holds_below; eauto.
Qed.

(** Each maximum of the measuring loop is reached: it is the value the
    loop started from, or the measure of one of the lines. *)
Lemma measure_line_reached extents h0 w0 g0 line h w g :
  measure_line extents (h0, w0, g0) line = (h, w, g) ->
  (h = h0
   \/ h = to_guint (rect_height (extents (git_source_view_set_text_for_line line)))
   \/ h = to_guint (rect_height
                      (extents (git_source_view_set_text_for_commit (commit line)))))
  /\ (w = w0
      \/ w = to_guint (rect_width (extents (git_source_view_set_text_for_line line))))
  /\ (g = g0
      \/ g = to_guint (rect_width
                         (extents (git_source_view_set_text_for_commit (commit line))))).
Proof.
  unfold measure_line. intros H. injection H as <- <- <-.
  repeat match goal with
         | |- context [if ?a <? ?b then _ else _] =>
             lazymatch a with
             | context [if _ then _ else _] => fail
             | _ => destruct (Z.ltb_spec a b)
             end
         end; auto.
Qed.

Lemma measure_fold_reached extents source : forall h0 w0 g0 h w g,
  fold_left (measure_line extents) source (h0, w0, g0) = (h, w, g) ->
  (h = h0
   \/ exists line,
       In line source
       /\ (h = to_guint (rect_height (extents (git_source_view_set_text_for_line line)))
           \/ h = to_guint (rect_height
                              (extents (git_source_view_set_text_for_commit
                                          (commit line))))))
  /\ (w = w0
      \/ exists line,
          In line source
          /\ w = to_guint (rect_width (extents (git_source_view_set_text_for_line line))))
  /\ (g = g0
      \/ exists line,
          In line source
          /\ g = to_guint (rect_width
                             (extents (git_source_view_set_text_for_commit
                                         (commit line))))).
Proof.
  induction source as [| l source IH]; intros h0 w0 g0 h w g; cbn [fold_left].
  - intros H. injection H as <- <- <-. auto.
  - destruct (measure_line extents (h0, w0, g0) l) as [[h1 w1] g1] eqn:Hone.
    intros Hfold.
    destruct (measure_line_reached extents h0 w0 g0 l h1 w1 g1 Hone) as (Hh1 & Hw1 & Hg1).
    destruct (IH h1 w1 g1 h w g Hfold) as (Hh & Hw & Hg).
    conjs.
    + destruct Hh as [-> | (line & Hin & Hline)].
      * destruct Hh1 as [-> | Hl]; [left; reflexivity |].
        right. exists l. split; [left; reflexivity | exact Hl].
      * right. exists line. split; [right; exact Hin | exact Hline].
    + destruct Hw as [-> | (line & Hin & Hline)].
      * destruct Hw1 as [-> | Hl]; [left; reflexivity |].
        right. exists l. split; [left; reflexivity | exact Hl].
      * right. exists line. split; [right; exact Hin | exact Hline].
    + destruct Hg as [-> | (line & Hin & Hline)].
      * destruct Hg1 as [-> | Hl]; [left; reflexivity |].
        right. exists l. split; [left; reflexivity | exact Hl].
      * right. exists line. split; [right; exact Hin | exact Hline].
Qed.

(** X15.  Measuring a realized view with a source gives the largest
    measures of its lines, none below [1]: the row height holds the text
    and the hash of every line and is [1] or the height of one of them;
    the text width holds every text and is [1] or the width of one; the
    hash column is twice the gap added to a width that holds every hash
    and is [1] or the width of one.  It is not done again while the row
    height is not reset to [0]. *)
Theorem measured_rows_hold_every_line extents v source :
  paint_source v = Some source -> line_height v = 0 -> realized v = true ->
  let v' := fst (git_source_view_calculate_line_height extents v) in
  snd (git_source_view_calculate_line_height extents v) = true
  /\ 1 <= line_height v' /\ 1 <= max_line_width v'
  /\ (forall line,
        In line source ->
        to_guint (rect_height (extents (git_source_view_set_text_for_line line)))
        <= line_height v'
        /\ to_guint (rect_height
                       (extents (git_source_view_set_text_for_commit (commit line))))
           <= line_height v'
        /\ to_guint (rect_width (extents (git_source_view_set_text_for_line line)))
           <= max_line_width v')
  /\ (line_height v' = 1
      \/ exists line,
          In line source
          /\ (line_height v'
              = to_guint (rect_height (extents (git_source_view_set_text_for_line line)))
              \/ line_height v'
                 = to_guint (rect_height
                               (extents (git_source_view_set_text_for_commit
                                           (commit line))))))
  /\ (max_line_width v' = 1
      \/ exists line,
          In line source
          /\ max_line_width v'
             = to_guint (rect_width (extents (git_source_view_set_text_for_line line))))
  /\ (exists widest,
        1 <= widest
        /\ max_hash_length v' = to_guint (widest + 2 * GIT_SOURCE_VIEW_GAP)
        /\ (forall line,
              In line source ->
              to_guint (rect_width
                          (extents (git_source_view_set_text_for_commit (commit line))))
              <= widest)
        /\ (widest = 1
            \/ exists line,
                In line source
                /\ widest
                   = to_guint (rect_width
                                 (extents (git_source_view_set_text_for_commit
                                             (commit line))))))
  /\ git_source_view_calculate_line_height extents v' = (v', false).
Proof.
  intros Hsrc Hlh Hreal v'. subst v'.
  destruct (measure_fold extents source (1, 1, 1)) as [Hb Hall].
  assert (Hcalc : git_source_view_calculate_line_height extents v
                  = let '(h, w, g) := fold_left (measure_line extents) source (1, 1, 1) in
                    (mkView (paint_source v) h w (to_guint (g + GIT_SOURCE_VIEW_GAP * 2))
                            (x_offset v) (y_offset v) (allocation v) (realized v),
                     true)).
  { unfold git_source_view_calculate_line_height.
    rewrite Hsrc, Hlh, Hreal. reflexivity. }
  rewrite !Hcalc. clear Hcalc.
  destruct (fold_left (measure_line extents) source (1, 1, 1)) as [[h w] g] eqn:Hfold.
  destruct (measure_fold_reached extents source 1 1 1 h w g Hfold) as (Hrh & Hrw & Hrg).
  cbn [fst snd line_height max_line_width max_hash_length].
  unfold below in Hb. destruct Hb as (Hh & Hw & Hg).
  split; [reflexivity |]. split; [lia |]. split; [lia |].
  split; [| split; [exact Hrh | split; [exact Hrw | split]]].
  - intros line Hin. specialize (Hall line Hin). unfold holds in Hall. lia.
  - exists g. split; [lia |].
    split; [f_equal; unfold GIT_SOURCE_VIEW_GAP; lia |].
    split; [| exact Hrg].
    intros line Hin. specialize (Hall line Hin). unfold holds in Hall. lia.
  - unfold git_source_view_calculate_line_height.
    cbn [paint_source line_height realized]. rewrite Hsrc.
    destruct (Z.eqb_spec h 0); [lia | reflexivity].
Qed.

Lemma measured_rows_hold_every_line_witness :
  let extents := fun s : string => mkRect 0 0 (7 * Z.of_nat (String.length s)) 14 in
  let source := [mkLine (mkCommit "3f2a9c01" (mkColor 0 0 0)) "int x;  ";
                 mkLine (mkCommit "77aa01" (mkColor 9 9 9)) "return x;"] in
  let v := mkView (Some source) 0 0 0 0 0 (mkRect 0 0 200 100) true in
  let v' := fst (git_source_view_calculate_line_height extents v) in
  line_height v' = 14 /\ max_line_width v' = 63 /\ max_hash_length v' = 48
  /\ 1 <= line_height v'.
Proof.
  intros extents source v v'.
  destruct (measured_rows_hold_every_line extents v source eq_refl eq_refl eq_refl)
    as (_ & H & _).
  repeat split; [vm_compute; reflexivity .. | exact H].
Defined.

End SourceViewFacts.

(** * The commit dialog: proofs *)

Module CommitDialogFacts.
Import CommitDialog.

Section Facts.

Variable gettext : string -> string.

Lemma parent_rows_length (objects : gmap Z GitCommitObject) node : forall y,
  length (parent_rows gettext objects node y) = (2 * length node)%nat.
Proof.
  induction node as [| c node IH]; intros y; cbn; [reflexivity |].
  rewrite IH. lia.
Qed.

Lemma parent_rows_lookup (objects : gmap Z GitCommitObject) node : forall y i p,
  node !! i = Some p ->
  parent_rows gettext objects node y !! (2 * i)%nat
  = Some (mkChild (mkLabel true (gettext "<b>Parent</b>")) 0 1
                  (y + Z.of_nat i) (y + Z.of_nat i + 1) 6 6)
  /\ parent_rows gettext objects node y !! (2 * i + 1)%nat
     = Some (mkChild (mkLabel false (git_commit_get_hash objects p)) 1 2
                     (y + Z.of_nat i) (y + Z.of_nat i + 1) 7 6).
Proof.
  induction node as [| c node IH]; intros y i p Hi; [discriminate |].
  destruct i as [| i].
  - injection Hi as ->. cbn. rewrite Z.add_0_r. split; reflexivity.
  - cbn in Hi. destruct (IH (y + 1) i p Hi) as [H1 H2].
    replace (2 * S i)%nat with (S (S (2 * i))) by lia.
    replace (S (S (2 * i)) + 1)%nat with (S (S (2 * i + 1))) by lia.
    cbn [parent_rows row app lookup list_lookup].
    replace (y + Z.of_nat (S i)) with (y + 1 + Z.of_nat i) by lia.
    split; assumption.
Qed.

End Facts.

(** X16.  An update for a commit whose log data is there fills the table
    with one row for the commit and one row for each parent, in the order
    of the parents: row [0] holds the title and the hash of the commit,
    row [i + 1] the title and the hash of parent [i]; nothing of an
    earlier update is left. *)
Theorem update_lays_out_commit_and_parents gettext w children :
  table (priv w) = Some children ->
  commit (priv w) <> 0 ->
  git_commit_get_has_log_data (commits w) (commit (priv w)) = true ->
  exists rows,
    table (priv (git_commit_dialog_update gettext w)) = Some rows
    /\ length rows
       = (2 * (1 + length (git_commit_get_parents (commits w) (commit (priv w)))))%nat
    /\ rows !! 0%nat
       = Some (mkChild (mkLabel true (gettext "<b>Commit</b>")) 0 1 0 1 6 6)
    /\ rows !! 1%nat
       = Some (mkChild (mkLabel false (git_commit_get_hash (commits w) (commit (priv w))))
                       1 2 0 1 7 6)
    /\ forall i p,
        git_commit_get_parents (commits w) (commit (priv w)) !! i = Some p ->
        rows !! (2 + 2 * i)%nat
        = Some (mkChild (mkLabel true (gettext "<b>Parent</b>")) 0 1
                        (Z.of_nat i + 1) (Z.of_nat i + 2) 6 6)
        /\ rows !! (3 + 2 * i)%nat
           = Some (mkChild (mkLabel false (git_commit_get_hash (commits w) p)) 1 2
                           (Z.of_nat i + 1) (Z.of_nat i + 2) 7 6).
Proof.
  intros Ht Hc Hlog. unfold git_commit_dialog_update. rewrite Ht.
  destruct (Z.eqb_spec (commit (priv w)) 0) as [| _]; [contradiction |].
  eexists. split.
  { destruct (log_view _); cbn; reflexivity. }
  cbn [upd_dialog_priv priv commits] in *.
  rewrite Hlog. split; [| split; [reflexivity | split; [reflexivity |]]].
  - cbn [row app length]. rewrite parent_rows_length. lia.
  - intros i p Hi.
    destruct (parent_rows_lookup gettext (commits w) _ 1 i p Hi) as [H1 H2].
    replace (2 * i + 1)%nat with (S (2 * i)) in H2 by lia.
    cbn [row app]. cbn [lookup list_lookup Nat.add].
    replace (Z.of_nat i + 1) with (1 + Z.of_nat i) by lia.
    replace (Z.of_nat i + 2) with (1 + Z.of_nat i + 1) by lia.
    split; [exact H1 | exact H2].
Qed.

Lemma update_lays_out_commit_and_parents_witness :
  let gettext := fun s : string => s in
  exists w rows,
    dialog_run gettext [EvSetCommit 100 1; EvLogData 100 "Fix the trim" [200]]
        (git_commit_dialog_new sample_commits sample_refs) = Some w
    /\ table (priv (git_commit_dialog_update gettext w)) = Some rows
    /\ length rows = 4%nat
    /\ rows !! 3%nat = Some (mkChild (mkLabel false "77aa01ff") 1 2 1 2 7 6).
Proof.
  intros gettext. eexists.
  assert (Hrun : dialog_run gettext [EvSetCommit 100 1; EvLogData 100 "Fix the trim" [200]]
                     (git_commit_dialog_new sample_commits sample_refs) = Some _)
    by (vm_compute; reflexivity).
  match type of Hrun with
  | _ = Some ?w0 =>
      destruct (update_lays_out_commit_and_parents gettext w0
                  (default [] (table (priv w0))))
        as (rows & Ht & Hlen & _ & _ & Hp)
  end; [vm_compute; reflexivity | vm_compute; discriminate | vm_compute; reflexivity |].
  exists rows. split; [exact Hrun |]. split; [exact Ht |].
  split; [rewrite Hlen; vm_compute; reflexivity |].
  destruct (Hp 0%nat 200) as [_ H3]; [vm_compute; reflexivity |]. exact H3.
Defined.



(** What an update shows depends on the commit and on the data of the
    commits only. *)
Lemma update_eq gettext w :
  git_commit_dialog_update gettext w
  = mkDialogWorld
      (mkDialogPriv (commit (priv w)) (has_log_data_handler (priv w))
              (match table (priv w) with
               | Some _ =>
                   Some (if commit (priv w) =? 0 then []
                         else row gettext "<b>Commit</b>"
                                  (git_commit_get_hash (commits w) (commit (priv w))) 0
                              ++ (if git_commit_get_has_log_data (commits w) (commit (priv w))
                                  then parent_rows gettext (commits w)
                                         (git_commit_get_parents (commits w) (commit (priv w))) 1
                                  else []))
               | None => None
               end)
              (match log_view (priv w) with
               | Some _ =>
                   Some (if commit (priv w) =? 0 then EmptyString
                         else if git_commit_get_has_log_data (commits w) (commit (priv w))
                              then git_commit_get_log_data (commits w) (commit (priv w))
                              else gettext "Loading...")
               | None => None
               end))
      (commits w) (ref_count w) (handlers w) (effects w).
Proof.
  destruct w as [[c h [t |] [l |]] cm rc hs ef]; reflexivity.
Qed.


Lemma update_idempotent gettext w :
  git_commit_dialog_update gettext (git_commit_dialog_update gettext w)
  = git_commit_dialog_update gettext w.
Proof.
  rewrite (update_eq gettext (git_commit_dialog_update gettext w)).
  rewrite (update_eq gettext w).
  destruct w as [[c h [t |] [l |]] cm rc hs ef]; reflexivity.
Qed.

(** X17.  Updating twice shows what updating once shows.  The text view
    reads the empty text without a commit, the translation of
    ["Loading..."] until the log data is there, and the log data then; a
    dialog without a commit has an empty table, and a disposed dialog is
    not touched. *)
Theorem update_shows_the_commit_once gettext w :
  git_commit_dialog_update gettext (git_commit_dialog_update gettext w)
  = git_commit_dialog_update gettext w
  /\ (forall text,
        log_view (priv w) = Some text ->
        log_view (priv (git_commit_dialog_update gettext w))
        = Some (if commit (priv w) =? 0 then EmptyString
                else if git_commit_get_has_log_data (commits w) (commit (priv w))
                     then git_commit_get_log_data (commits w) (commit (priv w))
                     else gettext "Loading..."))
  /\ (commit (priv w) = 0 ->
      forall children,
        table (priv w) = Some children ->
        table (priv (git_commit_dialog_update gettext w)) = Some [])
  /\ (table (priv w) = None -> log_view (priv w) = None ->
      git_commit_dialog_update gettext w = w).
Proof.
  split; [| split; [| split]].
  - apply update_idempotent.
  - intros text Ht. rewrite update_eq. cbn. rewrite Ht. reflexivity.
  - intros Hc children Ht. rewrite update_eq. cbn. rewrite Ht, Hc. reflexivity.
  - intros Ht Hl. rewrite update_eq, Ht, Hl.
    destruct w as [[c h t l] cm rc hs ef]. cbn in *. subst. reflexivity.
Qed.





































End CommitDialogFacts.
